(** * Draft generation pipeline of content-scraper

    A shallow embedding of [execution/generate_posts.py]: the candidate
    filter ([filter_posts]), the clean-up of raw model output
    ([generate_draft]), the similarity gate ([check_similarity] and the
    loop of [main]), the draft store ([save_drafts]) and the voice
    profile ([load_voice_profile]).

    Conventions of the model.
    - A Python [str] is a [string]; each [ascii] stands for one code point
      in U+0000..U+00FF, and the character classes below are the ones
      Python's [re] and [str] methods use on that range.
    - A dictionary read with [d.get(k)] is a record (or a [gmap]) whose
      lookup may be absent.
    - [overlap / len(draft_words)] is a quotient of two integers; it is
      kept as an exact rational.  For fewer than 2^53 draft words the
      correctly rounded float compares with 0.5 as the rational does.
    - Exceptions are values of [result]. *)

From Stdlib Require Import NArith ZArith QArith Ascii String Lia.
From stdpp Require Import base list gmap strings sorting pretty.

Local Open Scope string_scope.
Local Open Scope list_scope.

(** ** Characters *)

Definition code (c : ascii) : N := N_of_ascii c.

Definition between (lo hi : N) (c : ascii) : bool :=
  ((lo <=? code c) && (code c <=? hi))%N.

(** [str.isalnum] on one character: letters, digits and numerics. *)
Definition is_alnum (c : ascii) : bool :=
  between 48 57 c || between 65 90 c || between 97 122 c
  || between 170 170 c || between 178 179 c || between 181 181 c
  || between 185 186 c || between 188 190 c
  || between 192 214 c || between 216 246 c || between 248 255 c.

(** The class [\w] of [re] on a [str] pattern: alphanumerics and the
    underscore. *)
Definition is_word_char (c : ascii) : bool :=
  is_alnum c || (code c =? 95)%N.

(** The class [\s], which is also what [str.strip] removes. *)
Definition is_space (c : ascii) : bool :=
  between 9 13 c || between 28 32 c || between 133 133 c || between 160 160 c.

(** [str.lower] on one character. *)
Definition lower_char (c : ascii) : ascii :=
  if between 65 90 c || between 192 214 c || between 216 222 c
  then ascii_of_N (code c + 32)
  else c.

Fixpoint lower (s : string) : string :=
  match s with
  | EmptyString => EmptyString
  | String c s' => String (lower_char c) (lower s')
  end.

Definition starts_with (p : ascii -> bool) (s : string) : bool :=
  match s with
  | EmptyString => false
  | String c _ => p c
  end.

Fixpoint ends_with (p : ascii -> bool) (s : string) : bool :=
  match s with
  | EmptyString => false
  | String c EmptyString => p c
  | String _ s' => ends_with p s'
  end.

Fixpoint all_chars (p : ascii -> bool) (s : string) : bool :=
  match s with
  | EmptyString => true
  | String c s' => p c && all_chars p s'
  end.

(** ** [str.strip] *)

Fixpoint lstrip (s : string) : string :=
  match s with
  | EmptyString => EmptyString
  | String c s' => if is_space c then lstrip s' else s
  end.

Fixpoint rstrip (s : string) : string :=
  match s with
  | EmptyString => EmptyString
  | String c s' =>
      match rstrip s' with
      | EmptyString => if is_space c then EmptyString else String c EmptyString
      | r => String c r
      end
  end.

Definition strip (s : string) : string := rstrip (lstrip s).

(** ** [re.findall] of a run pattern

    [runs p s] lists, left to right, the maximal non-empty runs of
    characters of class [p] in [s].  With [p := is_word_char] this is
    [re.findall(r"\b\w+\b", s)]: a match can only start where a word
    character follows a non-word character (or the start), the greedy
    [\w+] takes the whole run, and the closing [\b] holds there and at no
    shorter length. *)
Fixpoint runs (p : ascii -> bool) (s : string) : list string :=
  match s with
  | EmptyString => []
  | String c s' =>
      if p c then
        if starts_with p s' then
          match runs p s' with
          | w :: ws => String c w :: ws
          | [] => [String c EmptyString]
          end
        else String c EmptyString :: runs p s'
      else runs p s'
  end.

Definition findall_words (s : string) : list string := runs is_word_char s.

(** ** Similarity gate: [check_similarity] *)

Definition word_set (text : string) : gset string :=
  list_to_set (findall_words (lower text)).

Definition check_similarity (source draft : string) : Q :=
  let source_words := word_set source in
  let draft_words := word_set draft in
  if decide (draft_words = ∅) then 0
  else
    let overlap := size (source_words ∩ draft_words) in
    Z.of_nat overlap # Pos.of_nat (size draft_words).

(** The words of the spec's tokenizer: maximal alphanumeric runs of the
    lower-cased text.  It is compared with [word_set] below. *)
Definition spec_word_set (text : string) : gset string :=
  list_to_set (runs is_alnum (lower text)).

Definition spec_similarity (source draft : string) : Q :=
  if decide (spec_word_set draft = ∅) then 0
  else Z.of_nat (size (spec_word_set source ∩ spec_word_set draft))
       # Pos.of_nat (size (spec_word_set draft)).

(** The declarative reading of "maximal run": [w] occurs in [s], is not
    empty, consists of characters of class [p], and cannot be extended to
    the left or to the right. *)
Definition maximal_run (p : ascii -> bool) (w s : string) : Prop :=
  exists pre post : string,
    s = pre +:+ w +:+ post /\ w <> EmptyString /\ all_chars p w = true
    /\ ends_with p pre = false /\ starts_with p post = false.

(** The run at the start of a text, and the runs further in. *)
Definition head_run (p : ascii -> bool) (w s : string) : Prop :=
  exists post, s = w +:+ post /\ w <> EmptyString /\ all_chars p w = true
               /\ starts_with p post = false.

Definition inner_run (p : ascii -> bool) (w s : string) : Prop :=
  exists pre post, pre <> EmptyString /\ s = pre +:+ w +:+ post
                   /\ w <> EmptyString /\ all_chars p w = true
                   /\ ends_with p pre = false /\ starts_with p post = false.

(** ** Exceptions *)

Inductive exn :=
| TypeError
| AttributeError
| UnicodeDecodeError
| ValueError
| RecursionError.

Inductive result (A : Type) :=
| Ok (a : A)
| Raise (e : exn).

Arguments Ok {A} a.
Arguments Raise {A} e.

#[global] Instance result_ret : MRet result := @Ok.

#[global] Instance result_bind : MBind result :=
  fun A B f m => match m with Ok a => f a | Raise e => Raise e end.

#[global] Instance result_fmap : FMap result :=
  fun A B f m => match m with Ok a => Ok (f a) | Raise e => Raise e end.

(** ** Candidate filter: [filter_posts] *)

(** Values that [json.load] puts into a record. *)
#[warnings="-register-all"]
Inductive pyval :=
| PNone
| PBool (b : bool)
| PNum (q : Q)
| PStr (s : string)
| PList (items : list pyval)
| PDict (items : gmap string pyval).

Abbreviation post := (gmap string pyval).

(** [len(v)]: defined on strings and containers, [TypeError] otherwise. *)
Definition py_len (v : pyval) : result nat :=
  match v with
  | PStr s => Ok (String.length s)
  | PList items => Ok (length items)
  | PDict items => Ok (size items)
  | _ => Raise TypeError
  end.

(** [v.startswith(prefix)]: only a [str] has the method. *)
Definition py_startswith (v : pyval) (prefix : string) : result bool :=
  match v with
  | PStr s => Ok (String.prefix prefix s)
  | _ => Raise AttributeError
  end.

Definition after_prefix (p s : string) : option string :=
  if String.prefix p s then Some (String.substring (String.length p) (String.length s - String.length p) s)
  else None.

(** Does [https?://\S+] match at the start of [s]?  The optional [s] is
    taken when present: without it the next character would have to be
    a colon. *)
Definition url_at (s : string) : bool :=
  match after_prefix "http" s with
  | None => false
  | Some r =>
      let r' := match r with
                | String c r1 => if (code c =? 115)%N then r1 else r
                | EmptyString => r
                end in
      match after_prefix "://" r' with
      | Some (String c _) => negb (is_space c)
      | _ => false
      end
  end.

(** [re.sub(r"https?://\S+", "", s)].  A match runs from its [h] to the
    next white space (or the end), so the scan only has to remember
    whether it is inside one. *)
Fixpoint sub_urls (in_url : bool) (s : string) : string :=
  match s with
  | EmptyString => EmptyString
  | String c s' =>
      if in_url then
        if is_space c then String c (sub_urls false s') else sub_urls true s'
      else if url_at s then sub_urls true s'
      else String c (sub_urls false s')
  end.

Definition strip_urls (s : string) : string := sub_urls false s.

Definition re_sub_urls (v : pyval) : result string :=
  match v with
  | PStr s => Ok (strip_urls s)
  | _ => Raise TypeError
  end.

(** One turn of the loop of [filter_posts]: [true] when the post reaches
    [filtered.append(post)], [false] on a [continue]. *)
Definition keep_post (p : post) : result bool :=
  let text := default (PStr EmptyString) (p !! "text") in
  n ← py_len text;
  if (n <? 30)%nat then Ok false
  else
    rt ← py_startswith text "RT @";
    if rt : bool then Ok false
    else
      text_without_urls ← strip <$> re_sub_urls text;
      if (String.length text_without_urls <? 20)%nat then Ok false
      else Ok true.

Fixpoint filter_posts_from (filtered : list post) (posts : list post)
  : result (list post) :=
  match posts with
  | [] => Ok filtered
  | p :: rest =>
      keep ← keep_post p;
      filter_posts_from (if keep : bool then filtered ++ [p] else filtered) rest
  end.

Definition filter_posts (posts : list post) : result (list post) :=
  filter_posts_from [] posts.

(** The three guards of the loop, on the text of a post. *)
Definition eligible_text (text : string) : bool :=
  (30 <=? String.length text)%nat
  && negb (String.prefix "RT @" text)
  && (20 <=? String.length (strip (strip_urls text)))%nat.

Definition text_of (p : post) : option string :=
  match p !! "text" with
  | Some (PStr s) => Some s
  | _ => None
  end.

Definition eligible (p : post) : bool :=
  match text_of p with
  | Some text => eligible_text text
  | None => false
  end.

(** A record is well typed when its text, if present, is a [str]. *)
Definition text_typed (p : post) : Prop :=
  p !! "text" = None \/ exists s, p !! "text" = Some (PStr s).

Definition normalized (p : post) : Prop :=
  exists s, p !! "text" = Some (PStr s).

(** ** Draft generator: the clean-up in [generate_draft] *)

Definition dquote : ascii := "034"%char.
Definition squote : ascii := "039"%char.
Definition newline : ascii := "010"%char.

Definition is_quote (c : ascii) : bool :=
  (code c =? 34)%N || (code c =? 39)%N.

(** Where [$] matches: at the end, or just before a final newline. *)
Definition at_end (s : string) : bool :=
  match s with
  | EmptyString => true
  | String c EmptyString => (code c =? 10)%N
  | _ => false
  end.

(** The second alternative of the quote pattern: a quote character
    followed by [$]. *)
Fixpoint sub_trailing_quote (s : string) : string :=
  match s with
  | EmptyString => EmptyString
  | String c s' =>
      if is_quote c && at_end s' then s'
      else String c (sub_trailing_quote s')
  end.

(** [re.sub] of the quote pattern (a quote character after [^], or a
    quote character before [$]) by the empty string: the first
    alternative can only match at position 0, the second only at the
    end. *)
Definition sub_quotes (s : string) : string :=
  match s with
  | EmptyString => EmptyString
  | String c s' =>
      if is_quote c then sub_trailing_quote s' else sub_trailing_quote s
  end.

(** Case-insensitive match of a lower-case pattern at the start of [s];
    the rest of [s] on success. *)
Fixpoint after_label (pat s : string) : option string :=
  match pat, s with
  | EmptyString, _ => Some s
  | String _ _, EmptyString => None
  | String p pat', String c s' =>
      if Ascii.eqb (lower_char c) p then after_label pat' s' else None
  end.

Definition match_label (s : string) : option string :=
  match after_label "post:" s with
  | Some r => Some r
  | None =>
      match after_label "tweet:" s with
      | Some r => Some r
      | None => after_label "draft:" s
      end
  end.

(** [re.sub(r'^(Post|Tweet|Draft):\s*', '', s, flags=re.IGNORECASE)]. *)
Definition sub_label (s : string) : string :=
  match match_label s with
  | Some r => lstrip r
  | None => s
  end.

Definition clean_draft (raw : string) : string :=
  let draft := strip raw in
  let draft := sub_quotes draft in
  sub_label draft.

(** [response] is the text of the model's answer, [None] when the call
    raised [anthropic.APIError]. *)
Definition generate_draft (response : option string) : option string :=
  clean_draft <$> response.

(** The quote rule as the spec words it: one pair, removed only when both
    ends carry a quote. *)
Definition spec_sub_quotes (s : string) : string :=
  if starts_with is_quote s && ends_with is_quote s
     && (2 <=? String.length s)%nat
  then String.substring 1 (String.length s - 2) s
  else s.

(** Input that needs no clean-up. *)
Definition clean_input (s : string) : Prop :=
  starts_with is_space s = false /\ ends_with is_space s = false
  /\ starts_with is_quote s = false /\ ends_with is_quote s = false
  /\ match_label s = None.

(** ** The loop body of [main] around the similarity gate *)

Inductive verdict :=
| SkipGenerationFailed
| SkipTooSimilar
| Keep (draft_text : string).

Definition exceeds_threshold (similarity : Q) : bool :=
  if Qlt_le_dec (1 # 2) similarity then true else false.

Definition main_step (source_text : string) (generated : option string) : verdict :=
  match generated with
  | None => SkipGenerationFailed
  | Some EmptyString => SkipGenerationFailed
  | Some draft_text =>
      let similarity := check_similarity source_text draft_text in
      if exceeds_threshold similarity then SkipTooSimilar
      else Keep draft_text
  end.

(** ** Draft store: [save_drafts] *)

Record Source := {
  source_username : string;
  source_text : string;
  source_url : string
}.

(** A draft as [main] builds it.  [draft_id] and [draft_created_at] are
    what [d.get("id")] and [d.get("created_at")] find: [None] when the
    key is missing. *)
Record Draft := {
  draft_id : option string;
  draft_created_at : option string;
  draft_source : Source;
  draft_text : string;
  draft_status : string;
  draft_notes : string
}.

(** [x.get("created_at", "")]. *)
Definition sort_key (d : Draft) : string :=
  default EmptyString (draft_created_at d).

(** [{d.get("id") for d in existing_drafts}]. *)
Definition ids_of (ds : list Draft) : gset (option string) :=
  list_to_set (draft_id <$> ds).

(** The loop that appends the new drafts; [existing_ids] is computed
    once, before the loop. *)
Definition append_new (existing_drafts drafts : list Draft) : list Draft :=
  let existing_ids := ids_of existing_drafts in
  foldl (fun (acc : list Draft) d =>
           if decide (draft_id d ∈ existing_ids) then acc else acc ++ [d])
        existing_drafts drafts.

(** [list.sort(key=..., reverse=True)] is stable: drafts with equal keys
    keep their order.  Any stable sort computes the same list; this one
    inserts each draft in front of the first one that is not strictly
    more recent. *)
Fixpoint insert_desc (d : Draft) (l : list Draft) : list Draft :=
  match l with
  | [] => [d]
  | y :: ys =>
      if String.ltb (sort_key d) (sort_key y) then y :: insert_desc d ys
      else d :: y :: ys
  end.

Definition sort_desc (l : list Draft) : list Draft := foldr insert_desc [] l.

Definition retention : nat := 100.

(** Lines 224-234: merge, sort, truncate. *)
Definition merge_drafts (existing_drafts drafts : list Draft) : list Draft :=
  take retention (sort_desc (append_new existing_drafts drafts)).

(** [a] is at least as recent as [b]. *)
Definition newer_eq (a b : Draft) : Prop :=
  String.leb (sort_key b) (sort_key a) = true.

(** *** Files

    A file is its bytes.  [open(path, "r", encoding="utf-8")] followed by
    [json.load] first decodes them: [utf8_valid] is the well-formedness
    test of the strict UTF-8 codec (no overlong forms, no surrogates,
    nothing above U+10FFFF). *)

Definition continuation (c : ascii) : bool := between 128 191 c.

Definition lead3 (b0 b1 : ascii) : bool :=
  (between 224 224 b0 && between 160 191 b1)
  || (between 225 236 b0 && continuation b1)
  || (between 237 237 b0 && between 128 159 b1)
  || (between 238 239 b0 && continuation b1).

Definition lead4 (b0 b1 : ascii) : bool :=
  (between 240 240 b0 && between 144 191 b1)
  || (between 241 243 b0 && continuation b1)
  || (between 244 244 b0 && between 128 143 b1).

Fixpoint utf8_valid (s : string) : bool :=
  match s with
  | EmptyString => true
  | String b0 s1 =>
      if between 0 127 b0 then utf8_valid s1
      else
        match s1 with
        | EmptyString => false
        | String b1 s2 =>
            if between 194 223 b0 then continuation b1 && utf8_valid s2
            else
              match s2 with
              | EmptyString => false
              | String b2 s3 =>
                  if lead3 b0 b1 then continuation b2 && utf8_valid s3
                  else
                    match s3 with
                    | EmptyString => false
                    | String b3 s4 =>
                        lead4 b0 b1 && continuation b2 && continuation b3
                        && utf8_valid s4
                    end
              end
        end
  end.

(** What [json.load] makes of decoded text, as far as the merge that
    follows can tell. *)
Inductive json_load_result :=
| JsonDrafts (existing_drafts : list Draft)
    (** a list of draft objects *)
| JsonNotDrafts (e : exn)
    (** any other JSON value: scanning the ids, appending or sorting
        raises [e] ([TypeError] or [AttributeError]) before the store
        file is opened for writing *)
| JsonDecodeError
    (** [json.JSONDecodeError], the one exception line 221 catches *)
| JsonRaises (e : exn).
    (** another exception of the parser, such as [RecursionError] on
        deep nesting; it is not caught *)

(** The JSON library, as [save_drafts] uses it: [json_loads] is
    [json.load] on decoded text and [json_chunks] lists the pieces that
    [json.dump] writes one after the other. *)
Class JsonCodec := {
  json_loads : string -> json_load_result;
  json_chunks : list Draft -> list string
}.

Inductive fs_op :=
| Truncate (path : string)
| Append (path chunk : string)
| Replace (src dst : string).

Abbreviation fs := (gmap string string).

Definition fs_step (σ : fs) (op : fs_op) : fs :=
  match op with
  | Truncate path => <[path := EmptyString]> σ
  | Append path chunk => <[path := default EmptyString (σ !! path) +:+ chunk]> σ
  | Replace src dst =>
      match σ !! src with
      | Some data => <[dst := data]> (delete src σ)
      | None => σ
      end
  end.

Definition fs_run (σ : fs) (ops : list fs_op) : fs := foldl fs_step σ ops.

(** The states of the file system while [ops] run: what another process
    may read. *)
Fixpoint fs_trace (σ : fs) (ops : list fs_op) : list fs :=
  match ops with
  | [] => [σ]
  | op :: rest => σ :: fs_trace (fs_step σ op) rest
  end.

(** [with open(path, "w") as f: json.dump(..., f)]: opening truncates the
    file, then each piece is written to it. *)
Definition write_json (path : string) (chunks : list string) : list fs_op :=
  Truncate path :: (Append path <$> chunks).

Definition dashboard_file : string := "dashboard/drafts.json".

Definition drafts_file (date_str : string) : string :=
  "drafts/pending_" +:+ date_str +:+ ".json".

(** Lines 215-222: the existing collection, or the exception that ends
    the call before line 236. *)
Definition load_existing `{JsonCodec} (file : option string)
  : result (list Draft) :=
  match file with
  | None => Ok []
  | Some data =>
      if utf8_valid data then
        match json_loads data with
        | JsonDrafts existing_drafts => Ok existing_drafts
        | JsonDecodeError => Ok []
        | JsonNotDrafts e => Raise e
        | JsonRaises e => Raise e
        end
      else Raise UnicodeDecodeError
  end.

(** [save_drafts]: the operations performed on the file system, and how
    the call ends.  Both paths are taken to be openable for writing:
    [date_str] is a date, so the dated file lies directly in the drafts
    directory, which line 204 creates. *)
Definition save_drafts `{JsonCodec} (σ : fs) (drafts : list Draft)
    (date_str : string) : list fs_op * result unit :=
  let dated := write_json (drafts_file date_str) (json_chunks drafts) in
  match load_existing (fs_run σ dated !! dashboard_file) with
  | Raise e => (dated, Raise e)
  | Ok existing_drafts =>
      let merged := merge_drafts existing_drafts drafts in
      (dated ++ write_json dashboard_file (json_chunks merged), Ok ())
  end.

(** The discipline the spec describes: the whole collection goes to
    another path, which then replaces the store file. *)
Definition write_whole_then_replace (path : string) (ops : list fs_op) : Prop :=
  exists tmp chunks,
    tmp <> path /\ ops = write_json tmp chunks ++ [Replace tmp path].

(** No reader sees anything but the old or the new content of [path]. *)
Definition never_partial (path : string) (σ : fs) (ops : list fs_op) : Prop :=
  forall σ', σ' ∈ fs_trace σ ops ->
    σ' !! path = σ !! path \/ σ' !! path = fs_run σ ops !! path.

(** A codec that knows the empty collection only: [json.dump] writes it
    as one piece, a pair of brackets, and [json.load] reads that back. *)
Definition empty_codec : JsonCodec := {|
  json_loads := fun text =>
    if String.eqb text "[]" then JsonDrafts [] else JsonDecodeError;
  json_chunks := fun _ => ["[]"]
|}.

(** ** Sample data *)

Definition scenario_post : post :=
  {[ "text" := PStr "gm frens, feeling good about the mint today, who's with me?" ]}.

Definition post_without_text : post :=
  {[ "username" := PStr "bob" ]}.

(** A model answer that opens a quotation and never closes it. *)
Definition unmatched_quote : string := String dquote "hello".

Definition sample_draft (id created text : string) : Draft := {|
  draft_id := Some id;
  draft_created_at := Some created;
  draft_source := {| source_username := "alice";
                     source_text := "a source post";
                     source_url := "https://x.com/alice/status/1" |};
  draft_text := text;
  draft_status := "pending";
  draft_notes := EmptyString
|}.

(** A store at its ceiling: 99 drafts of 2023 and, last, one of 2020
    with id "a". *)
Definition full_store : list Draft :=
  ((fun n : nat => sample_draft ("e" +:+ pretty n) "2023-01-01T00:00:00" "kept")
     <$> seq 1 99)
  ++ [sample_draft "a" "2020-01-01T00:00:00" "oldest"].

(** A batch whose first draft reuses the id "a". *)
Definition replayed_batch : list Draft :=
  [sample_draft "a" "2025-01-01T00:00:00" "same id as the oldest";
   sample_draft "new" "2024-01-01T00:00:00" "fresh"].

(** A batch with two drafts under one id. *)
Definition twin_batch : list Draft :=
  [sample_draft "x" "2025-01-01T00:00:00" "first";
   sample_draft "x" "2025-01-02T00:00:00" "second"].

(** The text a sequence of pieces adds up to. *)
Definition joined (chunks : list string) : string :=
  foldr String.append EmptyString chunks.

(** Store files that are not UTF-8: a stray byte 0xFF, and a collection
    cut off inside the two-byte encoding of an accented letter. *)
Definition undecodable_store : string := String (ascii_of_N 255) EmptyString.

Definition truncated_store : string := "[" +:+ String (ascii_of_N 195) EmptyString.

(** A store file that holds the empty collection. *)
Definition empty_store_fs : fs := {[ dashboard_file := "[]" ]}.

(** ** Vocabulary for the further properties *)

(** [t] occurs at the end of [s]. *)
Definition suffix_of (t s : string) : Prop := exists pre, s = pre +:+ t.

(** [a] occurs inside [b] as one piece. *)
Definition infix_of (a b : string) : Prop :=
  exists pre post, b = pre +:+ a +:+ post.

Definition non_space (c : ascii) : bool := negb (is_space c).

(** ** The generation loop of [main]

    A source post as the loop reads it: [post.get("id", "")],
    [post.get("username", "")] and [post.get("text", "")], each [None]
    when the key is missing. *)
Record SourcePost := {
  post_id : option string;
  post_username : option string;
  post_text : option string
}.

Definition MAX_POSTS_TO_PROCESS : nat := 10.

(** The [source] entry of a draft. *)
Definition source_of (p : SourcePost) : Source := {|
  source_username := default EmptyString (post_username p);
  source_text := default EmptyString (post_text p);
  source_url := "https://x.com/" +:+ default EmptyString (post_username p)
                +:+ "/status/" +:+ default EmptyString (post_id p)
|}.

(** The dictionary built for a kept draft; [uuid] is the value of
    [str(uuid.uuid4())] and [now] of [datetime.now().isoformat()]. *)
Definition new_draft (p : SourcePost) (text uuid now : string) : Draft := {|
  draft_id := Some uuid;
  draft_created_at := Some now;
  draft_source := source_of p;
  draft_text := text;
  draft_status := "pending";
  draft_notes := EmptyString
|}.

(** The world the loop talks to: [api i] is the answer to the call made
    for the post at position [i] ([None] for [anthropic.APIError]);
    [uuid k] and [clock k] are what [uuid4] and [datetime.now] return
    when the draft number [k] is built. *)
Record World := {
  api : nat -> option string;
  uuid : nat -> string;
  clock : nat -> string
}.

(** The verdict on the post at position [i]. *)
Definition verdict_at (w : World) (i : nat) (p : SourcePost) : verdict :=
  main_step (default EmptyString (post_text p)) (generate_draft (api w i)).

(** [for i, post in enumerate(posts_to_process, 1)]: [i] counts the posts
    seen so far and [drafts] is the list being built. *)
Fixpoint main_loop (w : World) (i : nat) (drafts : list Draft)
    (posts : list SourcePost) : list Draft :=
  match posts with
  | [] => drafts
  | p :: rest =>
      match verdict_at w i p with
      | Keep text =>
          let k := length drafts in
          main_loop w (S i) (drafts ++ [new_draft p text (uuid w k) (clock w k)]) rest
      | _ => main_loop w (S i) drafts rest
      end
  end.

(** The drafts of a run, from the filtered posts. *)
Definition generate_drafts (w : World) (filtered_posts : list SourcePost)
  : list Draft :=
  main_loop w 0 [] (take MAX_POSTS_TO_PROCESS filtered_posts).

(** The text kept for the post at position [i], if any, with the
    [source] entry of its draft. *)
Definition kept_at (w : World) (i : nat) (p : SourcePost)
  : option (string * Source) :=
  match verdict_at w i p with
  | Keep text => Some (text, source_of p)
  | _ => None
  end.

(** What a draft says: its text and its source. *)
Definition draft_content (d : Draft) : string * Source :=
  (draft_text d, draft_source d).

(** A world for the samples: the model always answers with the same
    text, identifiers are the decimal numerals, time runs by the day. *)
Definition sample_world : World := {|
  api := fun _ => Some "wagmi, ser";
  uuid := fun k => pretty k;
  clock := fun k => "2025-01-" +:+ pretty (10 + k)%nat
|}.

Definition sample_source_post : SourcePost := {|
  post_id := Some "42";
  post_username := Some "alice";
  post_text := Some "gm frens, feeling good about the mint today, who's with me?"
|}.

(** ** Voice profile: [load_voice_profile]

    The profile is a text document; [content] is the decoded text of the
    file. *)

Definition nl : string := String newline EmptyString.
Definition backtick : ascii := "096"%char.
Definition fence : string := String backtick (String backtick (String backtick EmptyString)).
Definition fence_open : string := fence +:+ nl.
Definition fence_close : string := nl +:+ fence.

(** [re.findall] of a fence, a lazy body and a closing fence, with
    [re.DOTALL]: a match starts at an opening fence and ends at the first
    closing fence after it; [cur] is the body read so far when the scan
    is inside a match, and [skip] counts the characters of a fence still
    to pass.  An opening fence that is never closed gives no match, and
    then no later one can. *)
Fixpoint find_fences (skip : nat) (cur : option string) (s : string)
  : list string :=
  match s with
  | EmptyString => []
  | String c s' =>
      match skip with
      | S k => find_fences k cur s'
      | O =>
          match cur with
          | None =>
              if String.prefix fence_open s then find_fences 3 (Some EmptyString) s'
              else find_fences 0 None s'
          | Some body =>
              if String.prefix fence_close s then body :: find_fences 3 None s'
              else find_fences 0 (Some (body +:+ String c EmptyString)) s'
          end
      end
  end.

(** The first occurrence of [pat] in [s]: what precedes it and what
    follows it. *)
Fixpoint split_at (pat s : string) : option (string * string) :=
  match after_prefix pat s with
  | Some rest => Some (EmptyString, rest)
  | None =>
      match s with
      | EmptyString => None
      | String c s' =>
          match split_at pat s' with
          | Some (before, rest) => Some (String c before, rest)
          | None => None
          end
      end
  end.

(** The lazy body before the lookahead: up to the first three hashes or
    three dashes, or to the end. *)
Fixpoint until_marker (s : string) : string :=
  match s with
  | EmptyString => EmptyString
  | String c s' =>
      if String.prefix "###" s || String.prefix "---" s then EmptyString
      else String c (until_marker s')
  end.

(** [re.search] of a heading line followed by that body: group 1. *)
Definition section_after (heading content : string) : option string :=
  match split_at (heading +:+ nl) content with
  | Some (_, rest) => Some (until_marker rest)
  | None => None
  end.

Definition push (c : ascii) (l : list string) : list string :=
  match l with
  | w :: ws => String c w :: ws
  | [] => [String c EmptyString]
  end.

Inductive bullet_mode := Scan | SkipSpace | Capture.

(** [re.findall] of a dash, a space and the rest of the line: group 1
    of every match. *)
Fixpoint bullets (mode : bullet_mode) (s : string) : list string :=
  match s with
  | EmptyString =>
      match mode with
      | Capture => [EmptyString]
      | _ => []
      end
  | String c s' =>
      match mode with
      | Scan => if String.prefix "- " s then bullets SkipSpace s' else bullets Scan s'
      | SkipSpace => bullets Capture s'
      | Capture =>
          if (code c =? 10)%N then EmptyString :: bullets Scan s'
          else push c (bullets Capture s')
      end
  end.

Record VoiceProfile := {
  profile_raw : string;
  profile_examples : list string;
  profile_tone : string;
  profile_topics : list string
}.

Definition parse_voice_profile (content : string) : VoiceProfile := {|
  profile_raw := content;
  profile_examples :=
    filter (fun ex => (20 < String.length ex)%nat)
           (strip <$> find_fences 0 None content);
  profile_tone :=
    match section_after "### Tone" content with
    | Some block => strip block
    | None => EmptyString
    end;
  profile_topics :=
    match section_after "### Topics" content with
    | Some block => strip <$> bullets Scan block
    | None => []
    end
|}.

(** [None] stands for the empty dictionary returned when the file does
    not exist. *)
Definition load_voice_profile (file : option string) : option VoiceProfile :=
  parse_voice_profile <$> file.

(** *** The sections as [update_voice_profile] writes them
    ([execution/analyze_voice.py]); [title] is [str.title]. *)

Fixpoint join (sep : string) (l : list string) : string :=
  match l with
  | [] => EmptyString
  | [x] => x
  | x :: rest => x +:+ sep +:+ join sep rest
  end.

Definition topics_section (title : string -> string) (topics : list string)
  : string :=
  match topics with
  | [] => "### Topics" +:+ nl +:+ "- General"
  | _ => "### Topics" +:+ nl
         +:+ join nl ((fun topic => "- " +:+ title topic) <$> topics)
  end.

Definition examples_section (examples : list string) : string :=
  match examples with
  | [] => "## Example Posts" +:+ nl +:+ nl +:+ "(No examples extracted)"
  | _ => "## Example Posts" +:+ nl +:+ nl
         +:+ join (nl +:+ nl)
               ((fun ex => fence +:+ nl +:+ ex +:+ nl +:+ fence) <$> examples)
  end.

(** A sample profile document. *)
Definition sample_profile : string :=
  "# Voice" +:+ nl +:+ nl
  +:+ "### Tone" +:+ nl +:+ "- Uses emojis: 40% of posts" +:+ nl +:+ nl
  +:+ topics_section (fun t => t) ["Nft"; "Community"] +:+ nl +:+ nl
  +:+ "### Style Patterns" +:+ nl +:+ "- Review examples below" +:+ nl +:+ nl
  +:+ "---" +:+ nl +:+ nl
  +:+ examples_section ["gm frens, we are so back today"; "short one"] +:+ nl +:+ nl
  +:+ "---" +:+ nl.

(** Conditions on a document and its parts. *)

Definition at_marker (s : string) : bool :=
  String.prefix "###" s || String.prefix "---" s.

Fixpoint no_marker (s : string) : bool :=
  match s with
  | EmptyString => true
  | String _ s' => negb (at_marker s) && no_marker s'
  end.

Definition no_newline (s : string) : bool :=
  all_chars (fun c => negb (code c =? 10)%N) s.

Definition no_hash (s : string) : bool :=
  all_chars (fun c => negb (code c =? 35)%N) s.

Definition no_backtick (s : string) : bool :=
  all_chars (fun c => negb (code c =? 96)%N) s.

(** Neither a newline, a hash nor a dash. *)
Definition plain_char (c : ascii) : bool :=
  negb ((code c =? 10)%N || (code c =? 35)%N || (code c =? 45)%N).

Definition plain_label (l : string) : bool :=
  all_chars plain_char l
  && negb (starts_with is_space l) && negb (ends_with is_space l).

(** A bullet line of a section. *)
Definition bullet (l : string) : string := "- " +:+ l.

Definition sample_profile_head : string :=
  "# Voice" +:+ nl +:+ nl
  +:+ "### Tone" +:+ nl +:+ "- Uses emojis: 40% of posts" +:+ nl +:+ nl.

Definition sample_profile_tail : string :=
  "### Style Patterns" +:+ nl +:+ "- Review examples below" +:+ nl +:+ nl
  +:+ "---" +:+ nl +:+ nl
  +:+ examples_section ["gm frens, we are so back today"; "short one"] +:+ nl +:+ nl
  +:+ "---" +:+ nl.

(** An example as [update_voice_profile] fences it. *)
Definition fenced (ex : string) : string := fence +:+ nl +:+ ex +:+ nl +:+ fence.

(** ** The candidate rule in the spec's words

    A URL is the scheme, http or https, a colon and two slashes, and
    then every character up to the next white space, at least one.
    [url_start s] says that a URL begins at the first character of
    [s]. *)
Definition url_start (s : string) : Prop :=
  exists c rest,
    is_space c = false
    /\ (s = "http://" +:+ String c rest \/ s = "https://" +:+ String c rest).

(** No URL begins at a character of [pre] when [post] follows it. *)
Definition url_free (pre post : string) : Prop :=
  forall a b, pre = a +:+ b -> b <> EmptyString -> ~ url_start (b +:+ post).

(** [without_urls s t]: [t] is [s] with every URL taken out, from left
    to right.  A URL [u] is cut where the white space resumes. *)
Inductive without_urls : string -> string -> Prop :=
| without_urls_none (s : string) :
    url_free s EmptyString -> without_urls s s
| without_urls_cut (pre u rest t : string) :
    url_free pre (u +:+ rest) ->
    url_start u ->
    all_chars non_space u = true ->
    starts_with non_space rest = false ->
    without_urls rest t ->
    without_urls (pre +:+ u +:+ rest) (pre +:+ t).

(** [trimmed s t]: [t] is [s] without the white space at its two
    ends. *)
Definition trimmed (s t : string) : Prop :=
  exists ws1 ws2,
    all_chars is_space ws1 = true /\ all_chars is_space ws2 = true
    /\ s = ws1 +:+ t +:+ ws2
    /\ starts_with is_space t = false /\ ends_with is_space t = false.

(** The three conditions on the text of a post. *)
Definition spec_eligible (text : string) : Prop :=
  (30 <= String.length text)%nat
  /\ String.prefix "RT @" text = false
  /\ exists t kept,
       without_urls text t /\ trimmed t kept /\ (20 <= String.length kept)%nat.

(** Four posts: one with a link in the middle of its text, one that is a
    link and little else, a short one and a retweet. *)
Definition post_with_link : post :=
  {[ "text" := PStr "gm frens, mint is live at https://example.com/mint go get yours" ]}.

Definition post_link_only : post :=
  {[ "text" := PStr "look: https://example.com/a/very/long/path/to/the/mint/page  " ]}.

Definition post_short : post :=
  {[ "text" := PStr "gm" ]}.

Definition post_retweet : post :=
  {[ "text" := PStr "RT @alice: gm frens, feeling good about the mint today" ]}.

(** ** The store rules in the spec's words

    The time stamp of a draft; a draft without one counts as older than
    any other. *)
Definition created_at (d : Draft) : string :=
  match draft_created_at d with
  | Some stamp => stamp
  | None => EmptyString
  end.

(** [a] is not older than [b].  Stamps are compared as text, character
    by character, which for the ISO 8601 stamps that [main] writes is
    the order of time. *)
Definition not_older (a b : Draft) : Prop :=
  String.leb (created_at b) (created_at a) = true.





(** ** [re.sub] in [update_voice_profile]

    The replacement that [re.sub] is given is a template: a backslash
    in it starts an escape, which stands for a group or for a control
    character, or is an error.  A replacement without a backslash stands
    for itself, and only that case is given a value here. *)
Definition no_backslash (s : string) : bool :=
  all_chars (fun c => negb (code c =? 92)%N) s.

Definition expand_template (repl : string) : option string :=
  if no_backslash repl then Some repl else None.

(** Lines 414-418: the replacement for the examples section. *)
Definition new_examples_section (examples : list string) : string :=
  examples_section examples +:+ nl +:+ nl +:+ "---" +:+ nl +:+ nl.

(** A profile whose examples section has just been replaced. *)
Definition updated_profile : string :=
  sample_profile_head
  +:+ new_examples_section ["gm frens, we are so back today"; "short one"].

(** * Theorems *)

(** ** Text *)

#[local] Arguments String.append : simpl nomatch.

Lemma append_nil_r (s : string) : s +:+ EmptyString = s.
Proof. induction s as [|c s IH]; simpl; congruence. Qed.

Lemma append_assoc (a b c : string) : (a +:+ b) +:+ c = a +:+ (b +:+ c).
Proof. induction a as [|x a IH]; simpl; congruence. Qed.

Lemma ends_with_cons (p : ascii -> bool) (c : ascii) (s : string) :
  s <> EmptyString -> ends_with p (String c s) = ends_with p s.
Proof. by destruct s. Qed.

Lemma all_chars_starts (p : ascii -> bool) (w : string) :
  w <> EmptyString -> all_chars p w = true -> starts_with p w = true.
Proof. destruct w as [|c w]; simpl; [done | intros _ H]. by apply andb_true_iff in H as [? _]. Qed.

Lemma starts_with_append (p : ascii -> bool) (w s : string) :
  w <> EmptyString -> starts_with p (w +:+ s) = starts_with p w.
Proof. by destruct w. Qed.

Lemma lstrip_id (s : string) : starts_with is_space s = false -> lstrip s = s.
Proof. destruct s as [|c s]; simpl; [done|]. by intros ->. Qed.

Lemma rstrip_id (s : string) : ends_with is_space s = false -> rstrip s = s.
Proof.
  induction s as [|c s IH]; [done|].
  destruct s as [|d s].
  - simpl. by intros ->.
  - intros H. rewrite ends_with_cons in H by done.
    change (rstrip (String c (String d s)))
      with (match rstrip (String d s) with
            | EmptyString => if is_space c then EmptyString else String c EmptyString
            | r => String c r
            end).
    by rewrite IH.
Qed.

Lemma rstrip_no_trailing_space (s : string) : ends_with is_space (rstrip s) = false.
Proof.
  induction s as [|c s IH]; [done|]. simpl.
  destruct (rstrip s) as [|d r] eqn:Hr.
  - destruct (is_space c) eqn:Hc; simpl; done.
  - by rewrite ends_with_cons.
Qed.

Lemma strip_no_trailing_space (s : string) : ends_with is_space (strip s) = false.
Proof. apply rstrip_no_trailing_space. Qed.

Lemma strip_id (s : string) :
  starts_with is_space s = false -> ends_with is_space s = false -> strip s = s.
Proof. intros H1 H2. unfold strip. rewrite lstrip_id by done. by apply rstrip_id. Qed.

Lemma lstrip_spaces (ws rest : string) :
  all_chars is_space ws = true -> starts_with is_space rest = false ->
  lstrip (ws +:+ rest) = rest.
Proof.
  intros Hws Hrest. induction ws as [|c ws IH]; simpl in *.
  - by apply lstrip_id.
  - apply andb_true_iff in Hws as [-> Hws]. auto.
Qed.

Lemma append_length (a b : string) :
  String.length (a +:+ b) = (String.length a + String.length b)%nat.
Proof. induction a as [|c a IH]; simpl; [done | by rewrite IH]. Qed.

Lemma suffix_of_refl (s : string) : suffix_of s s.
Proof. by exists EmptyString. Qed.

Lemma suffix_of_trans (a b c : string) :
  suffix_of a b -> suffix_of b c -> suffix_of a c.
Proof. intros [p ->] [q ->]. exists (q +:+ p). by rewrite append_assoc. Qed.

Lemma lstrip_suffix (s : string) : suffix_of (lstrip s) s.
Proof.
  induction s as [|c s IH]; simpl; [apply suffix_of_refl|].
  destruct (is_space c); [|apply suffix_of_refl].
  destruct IH as [pre Hpre]. exists (String c pre). simpl. by rewrite <- Hpre.
Qed.

Lemma rstrip_prefix (s : string) : exists post, s = rstrip s +:+ post.
Proof.
  induction s as [|c s [post Hpost]]; [by exists EmptyString|]. simpl.
  destruct (rstrip s) as [|d r] eqn:Hr.
  - destruct (is_space c).
    + by exists (String c s).
    + exists s. done.
  - exists post. simpl. by rewrite Hpost at 1.
Qed.

Lemma prefix_nil (s : string) : String.prefix EmptyString s = true.
Proof. by destruct s. Qed.

Lemma prefix_cons (a b : ascii) (p s : string) :
  String.prefix (String a p) (String b s)
  = if ascii_dec a b then String.prefix p s else false.
Proof. reflexivity. Qed.

Lemma prefix_append (p r : string) : String.prefix p (p +:+ r) = true.
Proof.
  induction p as [|a p IH]; simpl; [apply prefix_nil|].
  by destruct (ascii_dec a a).
Qed.

Lemma prefix_true (p s : string) :
  String.prefix p s = true -> exists r, s = p +:+ r.
Proof.
  revert s. induction p as [|a p IH]; intros s H.
  - by exists s.
  - destruct s as [|b s]; [done|]. simpl in H.
    destruct (ascii_dec a b) as [->|]; [|done].
    destruct (IH _ H) as [r ->]. by exists r.
Qed.

Lemma substring_all (s : string) : substring 0 (String.length s) s = s.
Proof. induction s as [|c s IH]; simpl; congruence. Qed.

Lemma after_prefix_append (p r : string) : after_prefix p (p +:+ r) = Some r.
Proof.
  unfold after_prefix. rewrite prefix_append. f_equal.
  induction p as [|a p IH]; simpl.
  - rewrite Nat.sub_0_r. apply substring_all.
  - exact IH.
Qed.

Lemma after_prefix_sound (p s r : string) :
  after_prefix p s = Some r -> s = p +:+ r.
Proof.
  intros H. assert (String.prefix p s = true) as Hp.
  { unfold after_prefix in H. by destruct (String.prefix p s). }
  destruct (prefix_true _ _ Hp) as [r' ->].
  rewrite after_prefix_append in H. congruence.
Qed.

Lemma append_inv_head (a x y : string) : a +:+ x = a +:+ y -> x = y.
Proof. induction a as [|c a IH]; simpl; [done|]. intros [= H]. auto. Qed.

Lemma all_chars_impl (p q : ascii -> bool) (s : string) :
  (forall c, p c = true -> q c = true) ->
  all_chars p s = true -> all_chars q s = true.
Proof.
  intros Hpq. induction s as [|c s IH]; simpl; [done|].
  intros [Hc Hs]%andb_true_iff. by rewrite Hpq, IH.
Qed.

Lemma rstrip_spaces (s ws : string) :
  all_chars is_space ws = true -> rstrip (s +:+ ws) = rstrip s.
Proof.
  intros Hws. induction s as [|c s IH].
  - simpl. induction ws as [|d ws IHws]; [done|]. cbn [all_chars] in Hws.
    apply andb_true_iff in Hws as [Hd Hws]. simpl. by rewrite IHws, Hd.
  - change (String c s +:+ ws) with (String c (s +:+ ws)). simpl. by rewrite IH.
Qed.

Lemma lstrip_before_spaces (s ws : string) :
  all_chars is_space ws = true ->
  exists ws', all_chars is_space ws' = true /\ lstrip (s +:+ ws) = lstrip s +:+ ws'.
Proof.
  intros Hws. induction s as [|c s IH].
  - exists EmptyString. split; [done|]. simpl.
    induction ws as [|d ws IHws]; [done|]. cbn [all_chars] in Hws.
    apply andb_true_iff in Hws as [Hd Hws]. simpl. rewrite Hd. auto.
  - change (String c s +:+ ws) with (String c (s +:+ ws)). simpl.
    destruct (is_space c); [exact IH|]. by exists ws.
Qed.

Lemma strip_spaces (s ws : string) :
  all_chars is_space ws = true -> strip (s +:+ ws) = strip s.
Proof.
  intros Hws. unfold strip.
  destruct (lstrip_before_spaces s ws Hws) as (ws' & Hws' & ->).
  by apply rstrip_spaces.
Qed.

Lemma all_chars_app (p : ascii -> bool) (a b : string) :
  all_chars p (a +:+ b) = all_chars p a && all_chars p b.
Proof. induction a as [|c a IH]; simpl; [done|]. by rewrite IH, andb_assoc. Qed.

Lemma all_chars_strip (p : ascii -> bool) (s : string) :
  all_chars p s = true -> all_chars p (strip s) = true.
Proof.
  intros Hs. unfold strip.
  destruct (lstrip_suffix s) as [pre Hpre].
  destruct (rstrip_prefix (lstrip s)) as [post Hpost].
  rewrite Hpre, all_chars_app in Hs. apply andb_true_iff in Hs as [_ Hs].
  rewrite Hpost, all_chars_app in Hs. by apply andb_true_iff in Hs as [Hs _].
Qed.

Lemma rstrip_keeps_start (s : string) :
  starts_with is_space s = false -> starts_with is_space (rstrip s) = false.
Proof.
  destruct s as [|c s]; [done|]. simpl. intros Hc.
  destruct (rstrip s); [by rewrite Hc | done].
Qed.

Lemma lstrip_no_leading_space (s : string) : starts_with is_space (lstrip s) = false.
Proof.
  induction s as [|c s IH]; [done|]. simpl.
  destruct (is_space c) eqn:Hc; [done|]. simpl. done.
Qed.

Lemma strip_idempotent (s : string) : strip (strip s) = strip s.
Proof.
  apply strip_id; [|apply strip_no_trailing_space].
  apply rstrip_keeps_start, lstrip_no_leading_space.
Qed.

Lemma maximal_run_split p w s :
  maximal_run p w s <-> head_run p w s \/ inner_run p w s.
Proof.
  split.
  - intros (pre & post & -> & Hw & Hall & Hpre & Hpost).
    destruct pre as [|c pre].
    + left. by exists post.
    + right. by exists (String c pre), post.
  - intros [(post & -> & Hw & Hall & Hpost) | (pre & post & _ & -> & Hw & Hall & Hpre & Hpost)].
    + by exists EmptyString, post.
    + by exists pre, post.
Qed.

Lemma head_run_unique p w1 w2 s : head_run p w1 s -> head_run p w2 s -> w1 = w2.
Proof.
  intros (post1 & -> & Hw1 & Hall1 & Hp1) (post2 & Heq & Hw2 & Hall2 & Hp2).
  revert w2 Heq Hw1 Hw2 Hall1 Hall2.
  induction w1 as [|c w1 IH]; intros [|d w2]; simpl; try done.
  intros [= -> Heq] _ _ [Hc Hall1]%andb_true_iff [_ Hall2]%andb_true_iff.
  f_equal.
  destruct w1 as [|c1 w1], w2 as [|d2 w2]; simpl in *; try done.
  - subst post1. simpl in Hp1. apply andb_true_iff in Hall2 as [? _]. congruence.
  - subst post2. simpl in Hp2. apply andb_true_iff in Hall1 as [? _]. congruence.
  - by apply IH.
Qed.

Lemma inner_run_cons p c w s :
  inner_run p w (String c s) <->
  (p c = false /\ head_run p w s) \/ inner_run p w s.
Proof.
  split.
  - intros (pre & post & Hne & Heq & Hw & Hall & Hpre & Hpost).
    destruct pre as [|c' pre]; [done|]. simpl in Heq. injection Heq as <- ->.
    destruct pre as [|c2 pre].
    + simpl in Hpre. left. split; [done|]. by exists post.
    + right. exists (String c2 pre), post. by rewrite ends_with_cons in Hpre.
  - intros [[Hpc (post & -> & Hw & Hall & Hpost)] | (pre & post & Hne & -> & Hw & Hall & Hpre & Hpost)].
    + by exists (String c EmptyString), post.
    + exists (String c pre), post. by rewrite ends_with_cons.
Qed.

Lemma head_run_starts p w s : head_run p w s -> starts_with p s = true.
Proof.
  intros (post & -> & Hw & Hall & _).
  rewrite starts_with_append by done. by apply all_chars_starts.
Qed.

Lemma head_run_cons p c w s :
  p c = true -> starts_with p s = true -> head_run p w s ->
  head_run p (String c w) (String c s).
Proof.
  intros Hc _ (post & -> & Hw & Hall & Hpost).
  exists post. simpl. rewrite Hc, Hall. done.
Qed.

Lemma runs_shape p s :
  if starts_with p s
  then exists w0 ws, runs p s = w0 :: ws /\ head_run p w0 s
                     /\ forall w, w ∈ ws <-> inner_run p w s
  else forall w, w ∈ runs p s <-> inner_run p w s.
Proof.
  induction s as [|c s IH]; simpl.
  - intros w. split; [by intros ?%elem_of_nil|].
    intros (pre & post & Hne & Heq & _). by destruct pre.
  - destruct (p c) eqn:Hc.
    + destruct (starts_with p s) eqn:Hs.
      * destruct IH as (w0 & ws & -> & Hhead & Hin).
        exists (String c w0), ws. split; [done|]. split.
        { by apply head_run_cons. }
        intros w. rewrite Hin, inner_run_cons.
        split; [auto | intros [[? _] | ?]; [congruence | done]].
      * exists (String c EmptyString), (runs p s). split; [done|]. split.
        { exists s. simpl. by rewrite Hc. }
        intros w. rewrite IH, inner_run_cons.
        split; [auto | intros [[? _] | ?]; [congruence | done]].
    + intros w. rewrite inner_run_cons.
      destruct (starts_with p s) eqn:Hs.
      * destruct IH as (w0 & ws & -> & Hhead & Hin).
        rewrite elem_of_cons, Hin. split.
        { intros [-> | ?]; auto. }
        intros [[_ Hw] | ?]; [left | by right].
        by eapply head_run_unique.
      * rewrite IH. split; [auto|].
        intros [[_ Hw%head_run_starts] | ?]; [congruence | done].
Qed.

Lemma elem_of_runs p w s : w ∈ runs p s <-> maximal_run p w s.
Proof.
  rewrite maximal_run_split.
  pose proof (runs_shape p s) as H.
  destruct (starts_with p s) eqn:Hs.
  - destruct H as (w0 & ws & -> & Hhead & Hin).
    rewrite elem_of_cons, Hin. split.
    + intros [-> | ?]; auto.
    + intros [Hw | ?]; [left | by right]. by eapply head_run_unique.
  - rewrite H. split; [auto|].
    intros [Hw%head_run_starts | ?]; [congruence | done].
Qed.

(** ** Similarity gate *)

Lemma elem_of_word_set (text w : string) :
  w ∈ word_set text <-> maximal_run is_word_char w (lower text).
Proof.
  unfold word_set, findall_words. rewrite elem_of_list_to_set.
  apply elem_of_runs.
Qed.

Lemma ratio_as_quotient (a b : nat) :
  b <> 0%nat ->
  (Z.of_nat a # Pos.of_nat b == inject_Z (Z.of_nat a) / inject_Z (Z.of_nat b))%Q.
Proof.
  intros Hb. rewrite Qmake_Qdiv.
  replace (Z.pos (Pos.of_nat b)) with (Z.of_nat b); [reflexivity|].
  destruct b as [|b]; [done|]. lia.
Qed.

Lemma ratio_in_unit_interval (a b : nat) :
  (a <= b)%nat -> b <> 0%nat ->
  (0 <= Z.of_nat a # Pos.of_nat b)%Q /\ (Z.of_nat a # Pos.of_nat b <= 1)%Q.
Proof.
  intros Hab Hb. unfold Qle. simpl. split; [lia|].
  rewrite Z.mul_1_r. 
  assert (Z.pos (Pos.of_nat b) = Z.of_nat b) as ->; [|lia].
  destruct b as [|b]; [done|]. lia.
Qed.

Lemma check_similarity_empty_draft_words (source draft : string) :
  word_set draft = ∅ -> check_similarity source draft = 0%Q.
Proof. intros H. unfold check_similarity. by rewrite decide_True. Qed.

Lemma check_similarity_ratio (source draft : string) :
  word_set draft <> ∅ ->
  check_similarity source draft =
    (Z.of_nat (size (word_set source ∩ word_set draft))
       # Pos.of_nat (size (word_set draft)))%Q.
Proof. intros H. unfold check_similarity. by rewrite decide_False. Qed.

(** C1 as the spec states it fails: with the underscore a word character,
    [snake_case] is one word for the code and two for the spec's
    tokenizer, and the two scores differ. *)
Lemma check_similarity_not_alphanumeric_runs :
  ~ (check_similarity "snake case" "snake_case"
     == spec_similarity "snake case" "snake_case")%Q.
Proof. vm_compute. discriminate. Qed.

(** C1 (amended): the score of [check_similarity] is
    |W(S) ∩ W(D)| / |W(D)|, where W(t) is the set of maximal runs of word
    characters (alphanumerics and the underscore) of the lower-cased
    text; it lies in [0,1], and it is 0 when W(D) is empty, in particular
    for the empty draft. *)
Theorem check_similarity_overlap_ratio (source draft : string) :
  (forall t w, w ∈ word_set t <-> maximal_run is_word_char w (lower t))
  /\ (word_set draft = ∅ -> check_similarity source draft = 0%Q)
  /\ (word_set draft <> ∅ ->
      (check_similarity source draft
       == inject_Z (Z.of_nat (size (word_set source ∩ word_set draft)))
          / inject_Z (Z.of_nat (size (word_set draft))))%Q)
  /\ check_similarity source EmptyString = 0%Q
  /\ (0 <= check_similarity source draft)%Q
  /\ (check_similarity source draft <= 1)%Q.
Proof.
  split; [apply elem_of_word_set|].
  split; [apply check_similarity_empty_draft_words|].
  assert (word_set draft <> ∅ -> size (word_set draft) <> 0%nat) as Hsize.
  { intros H Hs. by apply size_empty_iff, leibniz_equiv in Hs. }
  split.
  { intros H. rewrite check_similarity_ratio by done.
    apply ratio_as_quotient. auto. }
  split; [done|].
  destruct (decide (word_set draft = ∅)) as [He|Hne].
  - rewrite check_similarity_empty_draft_words by done. done.
  - rewrite check_similarity_ratio by done.
    apply ratio_in_unit_interval; [|auto].
    apply subseteq_size, intersection_subseteq_r.
Qed.

Lemma exceeds_threshold_iff (similarity : Q) :
  exceeds_threshold similarity = true <-> (1 # 2 < similarity)%Q.
Proof.
  unfold exceeds_threshold. destruct (Qlt_le_dec (1 # 2) similarity) as [Hlt|Hle].
  - done.
  - split; [done|]. intros Hlt. by apply Qlt_not_le in Hlt.
Qed.

Lemma main_step_some (source_text draft_text : string) :
  draft_text <> EmptyString ->
  main_step source_text (Some draft_text) =
    if exceeds_threshold (check_similarity source_text draft_text)
    then SkipTooSimilar else Keep draft_text.
Proof. by destruct draft_text. Qed.

(** C2: a generated draft is rejected by the similarity gate exactly when
    its score against the source strictly exceeds 0.5, and kept when the
    score is 0.5 or less; the draft of the scenario scores 4/5 and is
    rejected. *)
Theorem main_step_rejects_above_half (source_text draft_text : string) :
  draft_text <> EmptyString ->
  (main_step source_text (Some draft_text) = SkipTooSimilar
   <-> (1 # 2 < check_similarity source_text draft_text)%Q)
  /\ (main_step source_text (Some draft_text) = Keep draft_text
      <-> (check_similarity source_text draft_text <= 1 # 2)%Q)
  /\ (check_similarity "gm frens feeling good about the mint today"
                       "gm fam feeling good today" == 4 # 5)%Q
  /\ main_step "gm frens feeling good about the mint today"
            (Some "gm fam feeling good today") = SkipTooSimilar.
Proof.
  intros Hne. rewrite main_step_some by done.
  pose proof (exceeds_threshold_iff (check_similarity source_text draft_text)) as Hgate.
  destruct (exceeds_threshold _) eqn:He.
  - assert (1 # 2 < check_similarity source_text draft_text)%Q as Hlt by by apply Hgate.
    repeat split; try done.
    intros Hle. by apply Qlt_not_le in Hlt.
  - assert (check_similarity source_text draft_text <= 1 # 2)%Q as Hle.
    { apply Qnot_lt_le. intros Hlt. apply Hgate in Hlt. done. }
    repeat split; try done.
    intros Hlt. by apply Qlt_not_le in Hlt.
Qed.

Lemma main_step_rejects_above_half_witness :
  "gm fam feeling good today" <> EmptyString
  /\ (main_step "gm frens feeling good about the mint today"
             (Some "gm fam feeling good today") = SkipTooSimilar
      <-> (1 # 2 < check_similarity "gm frens feeling good about the mint today"
                                    "gm fam feeling good today")%Q).
Proof.
  split; [discriminate|].
  apply (main_step_rejects_above_half
           "gm frens feeling good about the mint today"
           "gm fam feeling good today").
  discriminate.
Defined.

(** ** Candidate filter *)

Lemma guard_chain (n m : nat) (rt : bool) :
  (if (n <? 30)%nat then Ok false
   else if rt then Ok false
   else if (m <? 20)%nat then Ok false else Ok true)
  = Ok ((30 <=? n)%nat && negb rt && (20 <=? m)%nat).
Proof.
  destruct (Nat.ltb_spec n 30), (Nat.leb_spec 30 n); try lia; [done|].
  destruct rt; [done|].
  destruct (Nat.ltb_spec m 20), (Nat.leb_spec 20 m); try lia; done.
Qed.

Lemma keep_post_str (p : post) (s : string) :
  p !! "text" = Some (PStr s) -> keep_post p = Ok (eligible_text s).
Proof.
  intros Hp. unfold keep_post, eligible_text. rewrite Hp.
  exact (guard_chain _ _ _).
Qed.

Lemma keep_post_missing_text (p : post) :
  p !! "text" = None -> keep_post p = Ok false.
Proof. intros Hp. unfold keep_post. by rewrite Hp. Qed.

Lemma keep_post_typed (p : post) :
  text_typed p -> keep_post p = Ok (eligible p).
Proof.
  unfold eligible, text_of. intros [Hp | [s Hp]]; rewrite Hp.
  - by apply keep_post_missing_text.
  - by apply keep_post_str.
Qed.

Lemma filter_posts_from_typed (filtered posts : list post) :
  Forall text_typed posts ->
  filter_posts_from filtered posts
  = Ok (filtered ++ filter (fun p => eligible p = true) posts).
Proof.
  intros Htyped. revert filtered.
  induction Htyped as [|p posts Hp _ IH]; intros filtered; simpl.
  - by rewrite app_nil_r.
  - rewrite keep_post_typed by done.
    destruct (eligible p) eqn:He; simpl; rewrite IH.
    + rewrite filter_cons_True by done. by rewrite <- app_assoc.
    + rewrite filter_cons_False; [done | congruence].
Qed.

Lemma filter_posts_from_skip (filtered before after : list post) (p : post) :
  p !! "text" = None ->
  filter_posts_from filtered (before ++ p :: after)
  = filter_posts_from filtered (before ++ after).
Proof.
  intros Hp. revert filtered.
  induction before as [|q before IH]; intros filtered; simpl.
  - by rewrite keep_post_missing_text.
  - destruct (keep_post q) as [k|e]; simpl; [apply IH | done].
Qed.

Lemma sub_urls_length (in_url : bool) (s : string) :
  (String.length (sub_urls in_url s) <= String.length s)%nat.
Proof.
  revert in_url. induction s as [|c s IH]; intros in_url; simpl; [done|].
  destruct in_url.
  - destruct (is_space c); simpl; [specialize (IH false) | specialize (IH true)]; lia.
  - destruct (url_at (String c s)); simpl;
      [specialize (IH true) | specialize (IH false)]; lia.
Qed.

Lemma sub_urls_inside_run (s : string) :
  all_chars non_space s = true -> sub_urls true s = EmptyString.
Proof.
  induction s as [|c s IH]; simpl; [done|].
  intros [Hc Hs]%andb_true_iff. unfold non_space in Hc.
  apply negb_true_iff in Hc. rewrite Hc. auto.
Qed.

Lemma suffix_of_cons (t : string) (c : ascii) (s : string) :
  suffix_of t (String c s) -> t = String c s \/ suffix_of t s.
Proof.
  intros [[|d pre] Hpre]; simpl in Hpre.
  - by left.
  - injection Hpre as -> ->. right. by exists pre.
Qed.

Lemma strip_urls_shrinks (s t : string) :
  suffix_of t s -> url_at t = true ->
  (String.length (strip_urls s) < String.length s)%nat.
Proof.
  unfold strip_urls. induction s as [|c s IH]; intros Hsuf Hurl.
  - destruct Hsuf as [[|d pre] Hpre]; [|done]. simpl in Hpre. by subst t.
  - simpl. destruct (url_at (String c s)) eqn:Hhere.
    + pose proof (sub_urls_length true s). lia.
    + apply suffix_of_cons in Hsuf as [-> | Hsuf]; [congruence|].
      simpl. specialize (IH Hsuf Hurl). lia.
Qed.

Lemma strip_urls_no_match (s : string) :
  (forall t, suffix_of t s -> url_at t = false) -> strip_urls s = s.
Proof.
  unfold strip_urls. induction s as [|c s IH]; intros Hno; [done|].
  simpl. rewrite (Hno (String c s)) by by exists EmptyString.
  rewrite IH; [done|].
  intros t [pre ->]. apply Hno. by exists (String c pre).
Qed.

Lemma eligible_iff (p : post) :
  eligible p = true <->
  exists text, p !! "text" = Some (PStr text)
    /\ (30 <= String.length text)%nat
    /\ String.prefix "RT @" text = false
    /\ (20 <= String.length (strip (strip_urls text)))%nat.
Proof.
  unfold eligible, text_of, eligible_text. split.
  - destruct (p !! "text") as [[| | |s| |]|]; try done.
    intros [[H1 H2]%andb_true_iff H3]%andb_true_iff.
    exists s. repeat split.
    + by apply Nat.leb_le.
    + by apply negb_true_iff.
    + by apply Nat.leb_le.
  - intros (s & -> & H1 & H2 & H3).
    by rewrite H2, (proj2 (Nat.leb_le _ _) H1), (proj2 (Nat.leb_le _ _) H3).
Qed.

(** *** The rule in the spec's words *)

Lemma code_inj (c d : ascii) : code c = code d -> c = d.
Proof.
  unfold code. intros H.
  rewrite <- (ascii_N_embedding c), <- (ascii_N_embedding d). by rewrite H.
Qed.

Lemma url_start_at (s : string) : url_start s -> url_at s = true.
Proof.
  intros (c & rest & Hc & [-> | ->]); unfold url_at.
  - change ("http://" +:+ String c rest) with ("http" +:+ "://" +:+ String c rest).
    rewrite after_prefix_append.
    change ("://" +:+ String c rest) with (String ":" ("//" +:+ String c rest)).
    cbv beta iota. change (code ":" =? 115)%N with false. cbv beta iota.
    change (String ":" ("//" +:+ String c rest)) with ("://" +:+ String c rest).
    rewrite after_prefix_append. by rewrite Hc.
  - change ("https://" +:+ String c rest)
      with ("http" +:+ String "s" ("://" +:+ String c rest)).
    rewrite after_prefix_append.
    cbv beta iota. change (code "s" =? 115)%N with true. cbv beta iota.
    rewrite after_prefix_append. by rewrite Hc.
Qed.

Lemma url_at_start (s : string) : url_at s = true -> url_start s.
Proof.
  unfold url_at, url_start.
  destruct (after_prefix "http" s) as [r|] eqn:Hr; [|done].
  apply after_prefix_sound in Hr as ->.
  assert (forall r', match after_prefix "://" r' with
                     | Some (String c _) => negb (is_space c)
                     | _ => false
                     end = true ->
                     exists c rest, is_space c = false /\ r' = "://" +:+ String c rest)
    as Htail.
  { intros r'. destruct (after_prefix "://" r') as [[|c rest]|] eqn:Hr'; try done.
    intros Hc. apply negb_true_iff in Hc. apply after_prefix_sound in Hr'.
    by exists c, rest. }
  destruct r as [|c r1].
  - intros H. by apply Htail in H as (? & ? & _ & ?).
  - destruct (code c =? 115)%N eqn:Hs.
    + intros (d & rest & Hd & ->)%Htail. exists d, rest. split; [done|]. right.
      apply N.eqb_eq in Hs. by rewrite (code_inj c "s" Hs).
    + intros (d & rest & Hd & Heq)%Htail. exists d, rest. split; [done|]. left.
      by rewrite Heq.
Qed.

Lemma url_start_append (u rest : string) : url_start u -> url_start (u +:+ rest).
Proof.
  intros (c & x & Hc & [-> | ->]); exists c, (x +:+ rest); (split; [done|]);
    [left | right]; reflexivity.
Qed.

Lemma url_start_not_space (c : ascii) (s : string) :
  url_start (String c s) -> is_space c = false.
Proof. intros (d & x & _ & [[= -> _] | [= -> _]]); reflexivity. Qed.

Lemma sub_urls_eq (in_url : bool) (c : ascii) (s : string) :
  sub_urls in_url (String c s)
  = if in_url then
      if is_space c then String c (sub_urls false s) else sub_urls true s
    else if url_at (String c s) then sub_urls true s
    else String c (sub_urls false s).
Proof. reflexivity. Qed.

(** Inside a URL the scan drops everything up to the next white space. *)
Lemma sub_urls_run (run rest : string) :
  all_chars non_space run = true ->
  starts_with non_space rest = false ->
  sub_urls true (run +:+ rest) = sub_urls false rest.
Proof.
  intros Hrun Hrest. induction run as [|c run IH].
  - destruct rest as [|c r]; [done|]. cbn [starts_with] in Hrest.
    apply negb_false_iff in Hrest.
    change (EmptyString +:+ String c r) with (String c r).
    rewrite !sub_urls_eq, Hrest.
    destruct (url_at (String c r)) eqn:Hurl; [|done].
    apply url_at_start, url_start_not_space in Hurl. congruence.
  - cbn [all_chars] in Hrun. apply andb_true_iff in Hrun as [Hc Hrun].
    apply negb_true_iff in Hc.
    change (String c run +:+ rest) with (String c (run +:+ rest)).
    rewrite sub_urls_eq, Hc. auto.
Qed.

Lemma url_free_tail (c : ascii) (pre post : string) :
  url_free (String c pre) post -> url_free pre post.
Proof. intros H a b -> Hb. by apply (H (String c a) b). Qed.

Lemma url_free_head (c : ascii) (pre post : string) :
  url_free (String c pre) post -> url_at (String c pre +:+ post) = false.
Proof.
  intros H. destruct (url_at (String c pre +:+ post)) eqn:Hurl; [|done].
  apply url_at_start in Hurl. by apply (H EmptyString (String c pre)) in Hurl.
Qed.

Lemma url_free_cons (c : ascii) (pre post : string) :
  ~ url_start (String c pre +:+ post) -> url_free pre post ->
  url_free (String c pre) post.
Proof.
  intros Hhead Htail [|d a] b Hab Hb; simpl in Hab.
  - by subst b.
  - injection Hab as -> ->. by apply (Htail a b).
Qed.

Lemma sub_urls_cut (pre u rest : string) :
  url_free pre (u +:+ rest) ->
  url_start u ->
  all_chars non_space u = true ->
  starts_with non_space rest = false ->
  sub_urls false (pre +:+ u +:+ rest) = pre +:+ sub_urls false rest.
Proof.
  intros Hfree Hu Hrun Hrest. induction pre as [|c pre IH].
  - destruct u as [|c u]. { by destruct Hu as (? & ? & _ & [? | ?]). }
    change (EmptyString +:+ String c u +:+ rest) with (String c (u +:+ rest)).
    rewrite sub_urls_eq.
    change (String c (u +:+ rest)) with (String c u +:+ rest).
    rewrite (url_start_at _ (url_start_append _ rest Hu)).
    cbn [all_chars] in Hrun. apply andb_true_iff in Hrun as [_ Hrun].
    by apply sub_urls_run.
  - change (String c pre +:+ u +:+ rest) with (String c (pre +:+ u +:+ rest)).
    rewrite sub_urls_eq.
    change (String c (pre +:+ u +:+ rest)) with (String c pre +:+ u +:+ rest).
    rewrite (url_free_head _ _ _ Hfree).
    change (String c pre +:+ sub_urls false rest)
      with (String c (pre +:+ sub_urls false rest)).
    f_equal. apply IH. by eapply url_free_tail.
Qed.

(** The scan removes the URLs in the spec's sense, and nothing else
    does. *)
Lemma without_urls_unique (s t : string) :
  without_urls s t -> t = strip_urls s.
Proof.
  unfold strip_urls. induction 1 as [s Hfree | pre u rest t Hfree Hu Hrun Hrest _ IH].
  - symmetry. apply strip_urls_no_match. intros t [pre ->].
    destruct t as [|c t]; [done|].
    destruct (url_at (String c t)) eqn:Hurl; [|done].
    apply url_at_start in Hurl. exfalso.
    apply (Hfree pre (String c t)); [done | done | by rewrite append_nil_r].
  - rewrite sub_urls_cut by done. by rewrite IH.
Qed.

Lemma without_urls_cons (c : ascii) (s t : string) :
  ~ url_start (String c s) -> without_urls s t ->
  without_urls (String c s) (String c t).
Proof.
  intros Hhead Hs. destruct Hs as [s Hfree | pre u rest t Hfree Hu Hrun Hrest Ht].
  - apply without_urls_none, url_free_cons; [by rewrite append_nil_r | done].
  - apply (without_urls_cut (String c pre)); try done.
    by apply url_free_cons.
Qed.

(** The longest run of characters other than white space at the start
    of a text. *)
Lemma leading_run (s : string) :
  exists run rest,
    s = run +:+ rest /\ all_chars non_space run = true
    /\ starts_with non_space rest = false.
Proof.
  induction s as [|c s (run & rest & -> & Hrun & Hrest)].
  - by exists EmptyString, EmptyString.
  - destruct (non_space c) eqn:Hc.
    + exists (String c run), rest. cbn [all_chars]. by rewrite Hc, Hrun.
    + exists EmptyString, (String c (run +:+ rest)). by cbn [starts_with].
Qed.

Lemma leading_run_longest (p y run rest : string) :
  p +:+ y = run +:+ rest ->
  all_chars non_space p = true ->
  starts_with non_space rest = false ->
  exists x, run = p +:+ x.
Proof.
  revert run. induction p as [|a p IH]; intros run Heq Hp Hrest.
  - by exists run.
  - cbn [all_chars] in Hp. apply andb_true_iff in Hp as [Ha Hp].
    destruct run as [|b run]; simpl in Heq.
    + subst rest. cbn [starts_with] in Hrest. congruence.
    + injection Heq as -> Heq. destruct (IH run Heq Hp Hrest) as [x ->].
      by exists x.
Qed.

Lemma url_start_run (run rest : string) :
  url_start (run +:+ rest) ->
  all_chars non_space run = true ->
  starts_with non_space rest = false ->
  url_start run.
Proof.
  intros (c & x & Hc & Hs) Hrun Hrest.
  assert (non_space c = true) as Hc' by (unfold non_space; by rewrite Hc).
  destruct Hs as [Hs | Hs].
  - change ("http://" +:+ String c x) with (("http://" +:+ String c EmptyString) +:+ x) in Hs.
    symmetry in Hs. apply leading_run_longest in Hs as [x' ->]; [|by cbn; rewrite Hc'|done].
    exists c, x'. split; [done|]. by left.
  - change ("https://" +:+ String c x) with (("https://" +:+ String c EmptyString) +:+ x) in Hs.
    symmetry in Hs. apply leading_run_longest in Hs as [x' ->]; [|by cbn; rewrite Hc'|done].
    exists c, x'. split; [done|]. by right.
Qed.

Lemma without_urls_sub_urls (n : nat) (s : string) :
  (String.length s <= n)%nat -> without_urls s (sub_urls false s).
Proof.
  revert s. induction n as [|n IH]; intros s Hlen.
  - destruct s; [|simpl in Hlen; lia].
    apply without_urls_none. intros a b Hab Hb. by destruct a, b.
  - destruct s as [|c s].
    { apply without_urls_none. intros a b Hab Hb. by destruct a, b. }
    rewrite sub_urls_eq. destruct (url_at (String c s)) eqn:Hurl.
    + destruct (leading_run (String c s)) as (run & rest & Heq & Hrun & Hrest).
      apply url_at_start in Hurl. rewrite Heq in Hurl.
      pose proof (url_start_run _ _ Hurl Hrun Hrest) as Hu.
      destruct run as [|d run]. { by destruct Hu as (? & ? & _ & [? | ?]). }
      simpl in Heq. injection Heq as <- ->.
      cbn [all_chars] in Hrun. pose proof Hrun as Hrun'.
      apply andb_true_iff in Hrun' as [_ Hrun'].
      rewrite sub_urls_run by done.
      apply (without_urls_cut EmptyString (String c run) rest); try done.
      * intros a b Hab Hb. by destruct a, b.
      * apply IH. simpl in Hlen. rewrite append_length in Hlen. lia.
    + apply without_urls_cons.
      * intros Hs. apply url_start_at in Hs. congruence.
      * apply IH. simpl in Hlen. lia.
Qed.

Lemma without_urls_strip_urls (s : string) : without_urls s (strip_urls s).
Proof. by apply (without_urls_sub_urls (String.length s)). Qed.

Lemma lstrip_split (s : string) :
  exists ws, all_chars is_space ws = true /\ s = ws +:+ lstrip s.
Proof.
  induction s as [|c s (ws & Hws & Hs)].
  - by exists EmptyString.
  - simpl. destruct (is_space c) eqn:Hc.
    + exists (String c ws). cbn [all_chars]. rewrite Hc, Hws.
      split; [done|]. simpl. by rewrite <- Hs.
    + by exists EmptyString.
Qed.

Lemma rstrip_split (s : string) :
  exists ws, all_chars is_space ws = true /\ s = rstrip s +:+ ws.
Proof.
  induction s as [|c s (ws & Hws & Hs)].
  - by exists EmptyString.
  - simpl. destruct (rstrip s) as [|d r] eqn:Hr.
    + destruct (is_space c) eqn:Hc.
      * exists (String c ws). cbn [all_chars]. rewrite Hc, Hws.
        split; [done|]. simpl in *. by rewrite <- Hs.
      * exists ws. split; [done|]. simpl in *. by rewrite <- Hs.
    + exists ws. split; [done|]. simpl in *. by rewrite <- Hs.
Qed.

Lemma trimmed_strip (s : string) : trimmed s (strip s).
Proof.
  destruct (lstrip_split s) as (ws1 & Hws1 & Hs1).
  destruct (rstrip_split (lstrip s)) as (ws2 & Hws2 & Hs2).
  exists ws1, ws2. split; [done|]. split; [done|]. split.
  - unfold strip. by rewrite <- Hs2.
  - split; [|apply strip_no_trailing_space].
    apply rstrip_keeps_start, lstrip_no_leading_space.
Qed.

Lemma trimmed_unique (s t : string) : trimmed s t -> t = strip s.
Proof.
  intros (ws1 & ws2 & Hws1 & Hws2 & -> & Hstart & Hend).
  rewrite <- append_assoc, strip_spaces by done.
  unfold strip. rewrite lstrip_spaces by done. by rewrite rstrip_id.
Qed.

Lemma eligible_text_spec (text : string) :
  eligible_text text = true <-> spec_eligible text.
Proof.
  unfold eligible_text, spec_eligible. split.
  - intros [[H1 H2]%andb_true_iff H3]%andb_true_iff.
    split; [by apply Nat.leb_le|]. split; [by apply negb_true_iff|].
    exists (strip_urls text), (strip (strip_urls text)).
    split; [apply without_urls_strip_urls|]. split; [apply trimmed_strip|].
    by apply Nat.leb_le.
  - intros (H1 & H2 & t & kept & Ht & Hkept & H3).
    apply without_urls_unique in Ht as ->. apply trimmed_unique in Hkept as ->.
    by rewrite H2, (proj2 (Nat.leb_le _ _) H1), (proj2 (Nat.leb_le _ _) H3).
Qed.

(** C3: on normalized posts the candidate filter returns the posts that
    pass the rule, each as often as it occurs and in the input order: a
    post passes exactly when its text has at least 30 characters, does
    not begin with "RT @", and still has at least 20 characters once
    every URL is taken out and the white space at both ends is trimmed.
    Being a function of its input, the filter gives the same output for
    the same input. *)
Theorem filter_posts_exact (posts : list post) :
  Forall normalized posts ->
  filter_posts posts = Ok (filter (fun p => eligible p = true) posts)
  /\ (forall p, eligible p = true <->
        exists text, p !! "text" = Some (PStr text) /\ spec_eligible text)
  /\ (forall text, without_urls text (strip_urls text)
                   /\ trimmed (strip_urls text) (strip (strip_urls text)))
  /\ sublist (filter (fun p => eligible p = true) posts) posts.
Proof.
  intros Hnorm. split; [|split; [|split]].
  - unfold filter_posts. rewrite filter_posts_from_typed; [done|].
    eapply Forall_impl; [exact Hnorm|]. intros p [s Hs]. right. by exists s.
  - intros p. unfold eligible, text_of. split.
    + destruct (p !! "text") as [[| | |s| |]|]; try done.
      intros H. exists s. split; [done|]. by apply eligible_text_spec.
    + intros (s & -> & H). by apply eligible_text_spec.
  - intros text. split; [apply without_urls_strip_urls | apply trimmed_strip].
  - apply sublist_filter.
Qed.

Lemma filter_posts_exact_witness :
  Forall normalized [post_with_link; post_link_only; post_short; post_retweet]
  /\ filter_posts [post_with_link; post_link_only; post_short; post_retweet]
     = Ok [post_with_link]
  /\ strip_urls "look: https://example.com/a/very/long/path/to/the/mint/page  "
     = "look:   ".
Proof.
  assert (Forall normalized
            [post_with_link; post_link_only; post_short; post_retweet]) as H.
  { repeat constructor; eexists; reflexivity. }
  split; [exact H|]. split; [|reflexivity].
  exact (proj1 (filter_posts_exact _ H)).
Defined.
(** C10: on records whose text, when present, is a string, the candidate
    filter returns without raising; a record without the text field is
    read as having empty text, fails the 30-character floor and is left
    out, and dropping such a record from any input does not change the
    result. *)
Theorem filter_posts_missing_text (posts : list post) :
  Forall text_typed posts ->
  exists out,
    filter_posts posts = Ok out
    /\ (forall p, p !! "text" = None -> keep_post p = Ok false /\ p ∉ out)
    /\ (forall before after p, p !! "text" = None ->
          filter_posts (before ++ p :: after) = filter_posts (before ++ after)).
Proof.
  intros Htyped. exists (filter (fun p => eligible p = true) posts).
  split; [|split].
  - unfold filter_posts. by rewrite filter_posts_from_typed.
  - intros p Hp. split; [by apply keep_post_missing_text|].
    intros [Hel _]%list_elem_of_filter.
    apply eligible_iff in Hel as (s & Hs & _). congruence.
  - intros before after p Hp. by apply filter_posts_from_skip.
Qed.

Lemma filter_posts_missing_text_witness :
  Forall text_typed [post_without_text; scenario_post]
  /\ exists out,
       filter_posts [post_without_text; scenario_post] = Ok out
       /\ (forall p, p !! "text" = None -> keep_post p = Ok false /\ p ∉ out)
       /\ (forall before after p, p !! "text" = None ->
             filter_posts (before ++ p :: after) = filter_posts (before ++ after)).
Proof.
  assert (Forall text_typed [post_without_text; scenario_post]) as H.
  { constructor; [by left|].
    constructor; [right; eexists; reflexivity | constructor]. }
  split; [exact H|].
  exact (filter_posts_missing_text _ H).
Defined.

(** ** Clean-up of the model's answer *)

Lemma is_quote_not_space (c : ascii) : is_quote c = true -> is_space c = false.
Proof.
  unfold is_quote, is_space, between.
  intros [H|H]%orb_true_iff; apply N.eqb_eq in H; rewrite H; done.
Qed.

Lemma ends_with_append_char (p : ascii -> bool) (s : string) (c : ascii) :
  ends_with p (s +:+ String c EmptyString) = p c.
Proof.
  induction s as [|d s IH]; [done|].
  simpl. rewrite <- IH. by destruct s.
Qed.

Lemma sub_trailing_quote_id (s : string) :
  ends_with is_space s = false -> ends_with is_quote s = false ->
  sub_trailing_quote s = s.
Proof.
  induction s as [|c s IH]; [done|]. intros Hsp Hq. simpl.
  destruct s as [|d s].
  - simpl in *. by rewrite Hq.
  - rewrite ends_with_cons in Hsp, Hq by done.
    rewrite IH by done.
    destruct s as [|e s]; [|by rewrite andb_false_r].
    simpl in Hsp. unfold at_end.
    assert ((code d =? 10)%N = false) as ->; [|by rewrite andb_false_r].
    apply N.eqb_neq. intros Hd. unfold is_space, between in Hsp.
    rewrite Hd in Hsp. done.
Qed.

Lemma sub_trailing_quote_last (body : string) (q : ascii) :
  is_quote q = true ->
  sub_trailing_quote (body +:+ String q EmptyString) = body.
Proof.
  intros Hq. induction body as [|c body IH]; simpl.
  - by rewrite Hq.
  - rewrite IH.
    assert (at_end (body +:+ String q EmptyString) = false) as ->;
      [|by rewrite andb_false_r].
    destruct body as [|d body]; simpl.
    + apply N.eqb_neq. intros Hd. unfold is_quote in Hq. rewrite Hd in Hq. done.
    + by destruct body.
Qed.

Lemma after_label_lower (pat label rest : string) :
  lower label = pat -> after_label pat (label +:+ rest) = Some rest.
Proof.
  revert pat. induction label as [|c label IH]; intros pat <-; simpl.
  - by destruct rest.
  - rewrite Ascii.eqb_refl. by apply IH.
Qed.

Lemma match_label_lower (label rest : string) :
  lower label ∈ ["post:"; "tweet:"; "draft:"] ->
  match_label (label +:+ rest) = Some rest.
Proof.
  rewrite !elem_of_cons. intros [Hl | [Hl | [Hl | Hl%elem_of_nil]]]; [| | |done];
    unfold match_label.
  - by rewrite (after_label_lower _ _ _ Hl).
  - rewrite (after_label_lower "tweet:" _ _ Hl).
    destruct label as [|c label]; [done|]. injection Hl as Hc _.
    simpl. by rewrite Hc.
  - rewrite (after_label_lower "draft:" _ _ Hl).
    destruct label as [|c label]; [done|]. injection Hl as Hc _.
    simpl. by rewrite Hc.
Qed.

Lemma sub_quotes_leading (q : ascii) (body : string) :
  ends_with is_space (String q body) = false ->
  is_quote q = true -> ends_with is_quote body = false ->
  sub_quotes (String q body) = body.
Proof.
  intros Hsp Hq Hbody. simpl. rewrite Hq.
  destruct body as [|c body]; [done|].
  rewrite ends_with_cons in Hsp by done. by apply sub_trailing_quote_id.
Qed.

Lemma sub_quotes_trailing (q : ascii) (body : string) :
  is_quote q = true ->
  starts_with is_quote (body +:+ String q EmptyString) = false ->
  sub_quotes (body +:+ String q EmptyString) = body.
Proof.
  intros Hq Hstart. rewrite <- (sub_trailing_quote_last body q Hq) at 2.
  destruct body as [|c body]; simpl in *; [congruence|]. by rewrite Hstart.
Qed.

Lemma sub_quotes_pair (q1 q2 : ascii) (body : string) :
  is_quote q1 = true -> is_quote q2 = true ->
  sub_quotes (String q1 (body +:+ String q2 EmptyString)) = body.
Proof. intros Hq1 Hq2. simpl. rewrite Hq1. by apply sub_trailing_quote_last. Qed.

Lemma sub_quotes_id (t : string) :
  ends_with is_space t = false ->
  starts_with is_quote t = false -> ends_with is_quote t = false ->
  sub_quotes t = t.
Proof.
  intros Hsp Hstart Hend. destruct t as [|c t]; [done|].
  simpl in Hstart. unfold sub_quotes. rewrite Hstart.
  by apply sub_trailing_quote_id.
Qed.

(** C7 as the spec states it fails: a leading quote with no trailing
    quote is removed, not left in place. *)
Lemma clean_draft_removes_unmatched_quote :
  starts_with is_quote unmatched_quote = true
  /\ ends_with is_quote unmatched_quote = false
  /\ spec_sub_quotes unmatched_quote = unmatched_quote
  /\ clean_draft unmatched_quote = "hello"
  /\ clean_draft unmatched_quote <> unmatched_quote.
Proof. repeat split; done. Qed.

(** C7 (amended): the clean-up trims the answer, then removes a leading
    quote character if there is one and, independently, a trailing quote
    character if there is one (a pair is removed whether or not the two
    match, and a quote at one end only is removed too), then removes one
    leading label "Post:", "Tweet:" or "Draft:" in any letter case
    together with the white space after it; on input free of surrounding
    white space, such quotes and labels it is the identity. *)
Theorem clean_draft_rules (raw : string) :
  clean_draft raw = sub_label (sub_quotes (strip raw))
  /\ ends_with is_space (strip raw) = false
  /\ (forall t, ends_with is_space t = false ->
        (forall q body, t = String q body -> is_quote q = true ->
           ends_with is_quote body = false -> sub_quotes t = body)
        /\ (forall q body, t = body +:+ String q EmptyString -> is_quote q = true ->
              starts_with is_quote t = false -> sub_quotes t = body)
        /\ (forall q1 q2 body, t = String q1 (body +:+ String q2 EmptyString) ->
              is_quote q1 = true -> is_quote q2 = true -> sub_quotes t = body)
        /\ (starts_with is_quote t = false -> ends_with is_quote t = false ->
            sub_quotes t = t))
  /\ (forall label ws rest,
        lower label ∈ ["post:"; "tweet:"; "draft:"] ->
        all_chars is_space ws = true -> starts_with is_space rest = false ->
        sub_label (label +:+ ws +:+ rest) = rest)
  /\ (forall s, match_label s = None -> sub_label s = s)
  /\ (clean_input raw -> clean_draft raw = raw).
Proof.
  split; [done|]. split; [apply strip_no_trailing_space|].
  split; [|split; [|split]].
  - intros t Hsp. repeat split.
    + intros q body -> Hq Hbody. by apply sub_quotes_leading.
    + intros q body -> Hq Hstart. by apply sub_quotes_trailing.
    + intros q1 q2 body -> Hq1 Hq2. by apply sub_quotes_pair.
    + by apply sub_quotes_id.
  - intros label ws rest Hlabel Hws Hrest. unfold sub_label.
    rewrite match_label_lower by done. by apply lstrip_spaces.
  - intros s Hs. unfold sub_label. by rewrite Hs.
  - intros (Hs1 & Hs2 & Hq1 & Hq2 & Hlabel). unfold clean_draft.
    rewrite strip_id by done. rewrite sub_quotes_id by done.
    unfold sub_label. by rewrite Hlabel.
Qed.

(** ** Draft store: merge, order, retention *)

Lemma append_new_filter (existing_drafts drafts : list Draft) :
  append_new existing_drafts drafts
  = existing_drafts
    ++ filter (fun d => draft_id d ∉ ids_of existing_drafts) drafts.
Proof.
  unfold append_new. generalize (ids_of existing_drafts) as ids.
  intros ids. generalize existing_drafts as acc.
  induction drafts as [|d drafts IH]; intros acc; simpl.
  - by rewrite app_nil_r.
  - rewrite IH. destruct (decide (draft_id d ∈ ids)) as [Hin|Hout].
    + by rewrite filter_cons_False by auto.
    + rewrite filter_cons_True by done. by rewrite <- app_assoc.
Qed.



Lemma newer_eq_trans (a b c : Draft) : newer_eq a b -> newer_eq b c -> newer_eq a c.
Proof.
  unfold newer_eq. intros Hab Hbc.
  pose proof (String.le_po) as [[_ Ht] _].
  apply Is_true_true. apply (Ht _ (sort_key b)); by apply Is_true_true.
Qed.

Lemma ltb_newer (a b : Draft) :
  String.ltb (sort_key a) (sort_key b) = true -> newer_eq b a.
Proof.
  unfold newer_eq, String.ltb, String.leb.
  by destruct (String.compare (sort_key a) (sort_key b)).
Qed.

Lemma not_ltb_newer (a b : Draft) :
  String.ltb (sort_key a) (sort_key b) = false -> newer_eq a b.
Proof.
  unfold newer_eq, String.ltb, String.leb.
  rewrite (String.compare_antisym (sort_key b) (sort_key a)).
  by destruct (String.compare (sort_key a) (sort_key b)).
Qed.

Lemma newer_not_ltb (a b : Draft) :
  newer_eq a b -> String.ltb (sort_key a) (sort_key b) = false.
Proof.
  unfold newer_eq, String.ltb, String.leb.
  rewrite (String.compare_antisym (sort_key b) (sort_key a)).
  by destruct (String.compare (sort_key a) (sort_key b)).
Qed.

Lemma insert_desc_perm (d : Draft) (l : list Draft) : insert_desc d l ≡ₚ d :: l.
Proof.
  induction l as [|y l IH]; simpl; [done|].
  destruct (String.ltb (sort_key d) (sort_key y)); [|done].
  rewrite IH. apply Permutation_swap.
Qed.

Lemma sort_desc_perm (l : list Draft) : sort_desc l ≡ₚ l.
Proof.
  induction l as [|d l IH]; simpl; [done|].
  by rewrite insert_desc_perm, IH.
Qed.

Lemma insert_desc_sorted (d : Draft) (l : list Draft) :
  StronglySorted newer_eq l -> StronglySorted newer_eq (insert_desc d l).
Proof.
  induction 1 as [|y l Hl IH Hy]; simpl.
  - repeat constructor.
  - destruct (String.ltb (sort_key d) (sort_key y)) eqn:Hlt.
    + constructor; [done|].
      rewrite insert_desc_perm. constructor; [by apply ltb_newer | done].
    + apply not_ltb_newer in Hlt.
      constructor; [by constructor|].
      constructor; [done|].
      eapply Forall_impl; [exact Hy|]. intros z Hz. by eapply newer_eq_trans.
Qed.

Lemma sort_desc_sorted (l : list Draft) : StronglySorted newer_eq (sort_desc l).
Proof.
  induction l as [|d l IH]; simpl; [constructor | by apply insert_desc_sorted].
Qed.

Lemma sort_desc_id (l : list Draft) : StronglySorted newer_eq l -> sort_desc l = l.
Proof.
  induction 1 as [|y l Hl IH Hy]; simpl; [done|].
  rewrite IH. destruct l as [|z l]; simpl; [done|].
  apply Forall_cons in Hy as [Hz _]. by rewrite (newer_not_ltb _ _ Hz).
Qed.

Lemma StronglySorted_take (n : nat) (l : list Draft) :
  StronglySorted newer_eq l -> StronglySorted newer_eq (take n l).
Proof.
  intros Hl. rewrite <- (take_drop n l) in Hl.
  by apply StronglySorted_app_1_l in Hl.
Qed.

Lemma StronglySorted_take_drop (n : nat) (l : list Draft) (k e : Draft) :
  StronglySorted newer_eq l -> k ∈ take n l -> e ∈ drop n l -> newer_eq k e.
Proof.
  intros Hl Hk He. rewrite <- (take_drop n l) in Hl.
  by eapply (StronglySorted_app_1_elem_of newer_eq).
Qed.

Lemma merge_drafts_length (existing_drafts drafts : list Draft) :
  length (merge_drafts existing_drafts drafts)
  = Nat.min retention (length (append_new existing_drafts drafts)).
Proof.
  unfold merge_drafts. rewrite length_take.
  by rewrite (Permutation_length (sort_desc_perm _)).
Qed.

Lemma not_older_newer_eq (a b : Draft) : not_older a b <-> newer_eq a b.
Proof. unfold not_older, newer_eq, created_at, sort_key. by destruct (draft_created_at a), (draft_created_at b). Qed.

Lemma StronglySorted_weaken {A} (R1 R2 : A -> A -> Prop) (l : list A) :
  (forall a b, R1 a b -> R2 a b) -> StronglySorted R1 l -> StronglySorted R2 l.
Proof.
  intros HR. induction 1 as [|x l _ IH Hx]; constructor; [done|].
  eapply Forall_impl; [exact Hx|]. intros y. apply HR.
Qed.

(** C5: after a merge the collection has at most 100 entries, is sorted
    by [created_at] from the most recent down, and holds exactly the most
    recent entries of the merged collection: the merged collection is the
    kept entries together with the evicted ones, and no evicted entry is
    more recent than a kept one. *)
Theorem merge_drafts_retention (existing_drafts drafts : list Draft) :
  retention = 100%nat
  /\ length (merge_drafts existing_drafts drafts)
     = Nat.min 100 (length (append_new existing_drafts drafts))
  /\ (length (merge_drafts existing_drafts drafts) <= 100)%nat
  /\ StronglySorted not_older (merge_drafts existing_drafts drafts)
  /\ exists evicted,
       append_new existing_drafts drafts
         ≡ₚ merge_drafts existing_drafts drafts ++ evicted
       /\ forall k e, k ∈ merge_drafts existing_drafts drafts -> e ∈ evicted ->
                      not_older k e.
Proof.
  split; [done|]. split; [apply merge_drafts_length|].
  split; [rewrite merge_drafts_length; unfold retention; lia|].
  split.
  { eapply StronglySorted_weaken; [|apply StronglySorted_take, sort_desc_sorted].
    intros a b. apply not_older_newer_eq. }
  exists (drop retention (sort_desc (append_new existing_drafts drafts))).
  split.
  - unfold merge_drafts. by rewrite take_drop, sort_desc_perm.
  - intros k e Hk He. apply not_older_newer_eq.
    eapply StronglySorted_take_drop; [apply sort_desc_sorted | exact Hk | exact He].
Qed.

Lemma merge_drafts_sorted (existing_drafts drafts : list Draft) :
  StronglySorted newer_eq (merge_drafts existing_drafts drafts).
Proof. apply StronglySorted_take, sort_desc_sorted. Qed.

Lemma merge_drafts_fixed (store : list Draft) :
  StronglySorted newer_eq store -> (length store <= retention)%nat ->
  take retention (sort_desc store) = store.
Proof. intros Hs Hl. rewrite sort_desc_id by done. by apply take_ge. Qed.

Lemma filter_none (ids : gset (option string)) (drafts : list Draft) :
  (forall d, d ∈ drafts -> draft_id d ∈ ids) ->
  filter (fun d => draft_id d ∉ ids) drafts = [].
Proof.
  induction drafts as [|d drafts IH]; intros H; [done|].
  rewrite filter_cons_False.
  - apply IH. intros d' Hd'. apply H, elem_of_cons. by right.
  - intros Hout. apply Hout, H, elem_of_cons. by left.
Qed.

(** Outside what [main] passes: at the ceiling, a batch whose first
    draft reuses the id "a" of the oldest stored draft under a later
    time stamp.  The first merge skips that draft (the store has the id)
    and evicts the stored draft that carried it; a second merge finds
    the id gone and appends the draft of the batch. *)
Lemma merge_drafts_replay_differs :
  merge_drafts (merge_drafts full_store replayed_batch) replayed_batch
  <> merge_drafts full_store replayed_batch.
Proof.
  intros H. apply (f_equal (fun l => draft_id <$> head l)) in H.
  vm_compute in H. discriminate.
Qed.







Lemma append_new_distinct_ids (existing_drafts drafts : list Draft) :
  NoDup (draft_id <$> existing_drafts) -> NoDup (draft_id <$> drafts) ->
  NoDup (draft_id <$> append_new existing_drafts drafts).
Proof.
  intros He Hd. rewrite append_new_filter, fmap_app.
  apply NoDup_app. split; [done|]. split.
  - intros i Hi (d & -> & [Hout _]%list_elem_of_filter)%list_elem_of_fmap.
    apply Hout. unfold ids_of. by apply elem_of_list_to_set.
  - apply (sublist_NoDup _ (draft_id <$> drafts)); [done|].
    apply fmap_sublist, sublist_filter.
Qed.

(** Outside what [main] passes: a batch of two drafts under the one id
    "x".  The set of known ids is computed before the loop and is not
    updated inside it, so with an empty store both drafts are
    appended. *)
Lemma append_new_keeps_twin_ids :
  NoDup (draft_id <$> ([] : list Draft))
  /\ draft_id <$> append_new [] twin_batch = [Some "x"; Some "x"]
  /\ ~ NoDup (draft_id <$> append_new [] twin_batch)
  /\ ~ NoDup (draft_id <$> merge_drafts [] twin_batch).
Proof.
  split; [constructor|]. split; [done|]. split.
  - intros H. vm_compute in H. apply NoDup_cons in H as [Hx _].
    apply Hx, elem_of_cons. by left.
  - intros H. vm_compute in H. apply NoDup_cons in H as [Hx _].
    apply Hx, elem_of_cons. by left.
Qed.




(** ** Draft store: files *)

Lemma drafts_file_not_dashboard (date_str : string) :
  drafts_file date_str <> dashboard_file.
Proof. unfold drafts_file, dashboard_file. discriminate. Qed.

Lemma fs_step_other (σ : fs) (op : fs_op) (path : string) :
  match op with
  | Truncate p | Append p _ => p <> path
  | Replace _ _ => False
  end ->
  fs_step σ op !! path = σ !! path.
Proof.
  destruct op as [p|p c|src dst]; simpl; [| |done];
    intros Hne; by rewrite lookup_insert_ne.
Qed.

Lemma fs_run_appends_other (σ : fs) (p path : string) (chunks : list string) :
  p <> path -> fs_run σ (Append p <$> chunks) !! path = σ !! path.
Proof.
  intros Hne. revert σ. unfold fs_run.
  induction chunks as [|c chunks IH]; intros σ; [done|].
  rewrite fmap_cons. cbn [foldl]. rewrite IH. by apply fs_step_other.
Qed.

Lemma fs_trace_appends_other (σ σ' : fs) (p path : string) (chunks : list string) :
  p <> path -> σ' ∈ fs_trace σ (Append p <$> chunks) -> σ' !! path = σ !! path.
Proof.
  intros Hne. revert σ.
  induction chunks as [|c chunks IH]; intros σ.
  - by intros ->%list_elem_of_singleton.
  - rewrite fmap_cons. cbn [fs_trace]. rewrite elem_of_cons.
    intros [-> | Hin]; [done|].
    rewrite (IH _ Hin). by apply fs_step_other.
Qed.

Lemma fs_run_write_json_other (σ : fs) (p path : string) (chunks : list string) :
  p <> path -> fs_run σ (write_json p chunks) !! path = σ !! path.
Proof.
  intros Hne. unfold write_json.
  change (fs_run (fs_step σ (Truncate p)) (Append p <$> chunks) !! path = σ !! path).
  rewrite fs_run_appends_other by done. by apply fs_step_other.
Qed.

Lemma fs_trace_write_json_other (σ σ' : fs) (p path : string) (chunks : list string) :
  p <> path -> σ' ∈ fs_trace σ (write_json p chunks) -> σ' !! path = σ !! path.
Proof.
  intros Hne. unfold write_json. cbn [fs_trace].
  rewrite elem_of_cons. intros [-> | Hin]; [done|].
  rewrite (fs_trace_appends_other _ _ _ _ _ Hne Hin). by apply fs_step_other.
Qed.

Lemma fs_run_app (σ : fs) (ops1 ops2 : list fs_op) :
  fs_run σ (ops1 ++ ops2) = fs_run (fs_run σ ops1) ops2.
Proof. apply foldl_app. Qed.

Lemma elem_of_fs_trace_app (σ σ' : fs) (ops1 ops2 : list fs_op) :
  σ' ∈ fs_trace σ (ops1 ++ ops2) ->
  σ' ∈ fs_trace σ ops1 \/ σ' ∈ fs_trace (fs_run σ ops1) ops2.
Proof.
  revert σ. induction ops1 as [|op ops1 IH]; intros σ; simpl.
  - by right.
  - rewrite !elem_of_cons. intros [-> | Hin]; [by left; left|].
    destruct (IH _ Hin) as [H|H]; [left; by right | by right].
Qed.

Lemma joined_snoc (chunks : list string) (c : string) :
  joined (chunks ++ [c]) = joined chunks +:+ c.
Proof.
  induction chunks as [|d chunks IH]; simpl.
  - by rewrite append_nil_r.
  - by rewrite IH, append_assoc.
Qed.

(** Appending pieces to a file that holds [acc]: every state on the way
    holds [acc] followed by the first [k] pieces. *)
Lemma fs_trace_appends (σ σ' : fs) (path acc : string) (chunks : list string) :
  σ !! path = Some acc ->
  σ' ∈ fs_trace σ (Append path <$> chunks) ->
  exists k, σ' !! path = Some (acc +:+ joined (take k chunks)).
Proof.
  revert σ acc. induction chunks as [|c chunks IH]; intros σ acc Hσ; simpl.
  - intros ->%list_elem_of_singleton. exists 0%nat. by rewrite append_nil_r.
  - rewrite elem_of_cons. intros [-> | Hin].
    + exists 0%nat. by rewrite append_nil_r.
    + destruct (IH (fs_step σ (Append path c)) (acc +:+ c)) as [k Hk]; [|done|].
      { simpl. by rewrite lookup_insert_eq, Hσ. }
      exists (S k). simpl. by rewrite <- append_assoc.
Qed.

Lemma fs_run_appends (σ : fs) (path acc : string) (chunks : list string) :
  σ !! path = Some acc ->
  fs_run σ (Append path <$> chunks) !! path = Some (acc +:+ joined chunks).
Proof.
  revert σ acc. induction chunks as [|c chunks IH]; intros σ acc Hσ; simpl.
  - by rewrite append_nil_r.
  - unfold fs_run in *. simpl. rewrite (IH _ (acc +:+ c)).
    + by rewrite append_assoc.
    + simpl. by rewrite lookup_insert_eq, Hσ.
Qed.

Lemma fs_trace_write_json (σ σ' : fs) (path : string) (chunks : list string) :
  σ' ∈ fs_trace σ (write_json path chunks) ->
  σ' !! path = σ !! path
  \/ exists k, σ' !! path = Some (joined (take k chunks)).
Proof.
  unfold write_json. simpl. rewrite elem_of_cons. intros [-> | Hin]; [by left|].
  right. eapply (fs_trace_appends _ _ path EmptyString) in Hin.
  - exact Hin.
  - by rewrite lookup_insert_eq.
Qed.

Lemma fs_run_write_json (σ : fs) (path : string) (chunks : list string) :
  fs_run σ (write_json path chunks) !! path = Some (joined chunks).
Proof.
  unfold write_json, fs_run. simpl.
  apply (fs_run_appends _ path EmptyString). by rewrite lookup_insert_eq.
Qed.

Lemma write_json_no_replace (path src dst : string) (chunks : list string) :
  Replace src dst ∉ write_json path chunks.
Proof.
  unfold write_json. rewrite elem_of_cons, list_elem_of_fmap.
  intros [H | (c & H & _)]; discriminate.
Qed.

Lemma no_replace_not_discipline (path : string) (ops : list fs_op) :
  (forall src dst, Replace src dst ∉ ops) ->
  ~ write_whole_then_replace path ops.
Proof.
  intros Hops (tmp & chunks & _ & ->).
  apply (Hops tmp path), elem_of_app. right. apply elem_of_cons. by left.
Qed.

Lemma load_existing_absent_or_not_json `{JsonCodec} (file : option string) :
  file = None
  \/ (exists data, file = Some data /\ utf8_valid data = true
                   /\ json_loads data = JsonDecodeError) ->
  load_existing file = Ok [].
Proof.
  intros [-> | (data & -> & Hvalid & Hjson)]; [done|].
  unfold load_existing. by rewrite Hvalid, Hjson.
Qed.

Lemma save_drafts_loaded `{JsonCodec} (σ : fs) (drafts existing : list Draft)
    (date_str : string) :
  load_existing (σ !! dashboard_file) = Ok existing ->
  save_drafts σ drafts date_str
  = (write_json (drafts_file date_str) (json_chunks drafts)
       ++ write_json dashboard_file (json_chunks (merge_drafts existing drafts)),
     Ok ()).
Proof.
  intros Hload. unfold save_drafts.
  rewrite fs_run_write_json_other by apply drafts_file_not_dashboard.
  by rewrite Hload.
Qed.

(** C8 on the code: a store file whose bytes are not UTF-8 (a stray
    0xFF, or a collection cut off inside a multi-byte character) makes
    the read raise [UnicodeDecodeError]; only [json.JSONDecodeError] is
    caught, so [save_drafts] ends there, after writing the dated file and
    before any merge. *)
Theorem save_drafts_raises_on_invalid_utf8 `{JsonCodec} :
  utf8_valid undecodable_store = false
  /\ utf8_valid truncated_store = false
  /\ load_existing (Some undecodable_store) = Raise UnicodeDecodeError
  /\ load_existing (Some truncated_store) = Raise UnicodeDecodeError
  /\ forall σ drafts date_str,
       σ !! dashboard_file = Some undecodable_store ->
       save_drafts σ drafts date_str
       = (write_json (drafts_file date_str) (json_chunks drafts),
          Raise UnicodeDecodeError).
Proof.
  repeat split; try done.
  intros σ drafts date_str Hσ. unfold save_drafts.
  rewrite fs_run_write_json_other by apply drafts_file_not_dashboard.
  by rewrite Hσ.
Qed.

(** C9 as the spec states it fails: merging nothing into a store that
    holds the empty collection opens the store file for writing, which
    empties it, and a reader at that moment sees neither the old nor the
    new collection; no operation replaces the file from another path. *)
Lemma save_drafts_exposes_truncated_store :
  ~ never_partial dashboard_file empty_store_fs
      (fst (@save_drafts empty_codec empty_store_fs [] "2025-01-01"))
  /\ ~ write_whole_then_replace dashboard_file
         (fst (@save_drafts empty_codec empty_store_fs [] "2025-01-01")).
Proof.
  split.
  - intros Hnever.
    destruct (Hnever (<[dashboard_file := EmptyString]>
                        (<[drafts_file "2025-01-01" := "[]"]> empty_store_fs)))
      as [H | H].
    + apply list_elem_of_lookup. exists 3%nat. vm_compute. reflexivity.
    + vm_compute in H. discriminate.
    + vm_compute in H. discriminate.
  - apply no_replace_not_discipline. intros src dst Hin.
    vm_compute in Hin.
    repeat (apply elem_of_cons in Hin as [Hin | Hin]; [discriminate|]).
    by apply elem_of_nil in Hin.
Qed.

(** C9 (amended): [save_drafts] overwrites the store file in place.  Once
    the existing collection is loaded, it writes the dated file, opens
    the store file for writing (which truncates it) and appends the
    pieces of the new collection to it; no other path is used and nothing
    is replaced, so a reader sees the old content, or a prefix of the new
    serialisation made of its first pieces, and the complete
    serialisation only at the end. *)
Theorem save_drafts_overwrites_in_place `{JsonCodec} (σ : fs)
    (drafts existing : list Draft) (date_str : string) :
  load_existing (σ !! dashboard_file) = Ok existing ->
  snd (save_drafts σ drafts date_str) = Ok ()
  /\ fst (save_drafts σ drafts date_str)
     = write_json (drafts_file date_str) (json_chunks drafts)
       ++ Truncate dashboard_file
          :: (Append dashboard_file <$> json_chunks (merge_drafts existing drafts))
  /\ (forall src dst, Replace src dst ∉ fst (save_drafts σ drafts date_str))
  /\ ~ write_whole_then_replace dashboard_file (fst (save_drafts σ drafts date_str))
  /\ (forall σ', σ' ∈ fs_trace σ (fst (save_drafts σ drafts date_str)) ->
        σ' !! dashboard_file = σ !! dashboard_file
        \/ exists k, σ' !! dashboard_file
                     = Some (joined (take k (json_chunks (merge_drafts existing drafts)))))
  /\ fs_run σ (fst (save_drafts σ drafts date_str)) !! dashboard_file
     = Some (joined (json_chunks (merge_drafts existing drafts))).
Proof.
  intros Hload. rewrite (save_drafts_loaded _ _ _ _ Hload). cbn [fst snd].
  assert (forall src dst,
            Replace src dst
            ∉ write_json (drafts_file date_str) (json_chunks drafts)
              ++ write_json dashboard_file (json_chunks (merge_drafts existing drafts)))
    as Hnone.
  { intros src dst [Hin | Hin]%elem_of_app; by apply write_json_no_replace in Hin. }
  split; [done|]. split; [done|]. split; [exact Hnone|].
  split; [by apply no_replace_not_discipline|]. split.
  - intros σ' [Hin | Hin]%elem_of_fs_trace_app.
    + left. eapply fs_trace_write_json_other; [|exact Hin].
      apply drafts_file_not_dashboard.
    + apply fs_trace_write_json in Hin as [Hin | Hin]; [left | by right].
      rewrite Hin. apply fs_run_write_json_other, drafts_file_not_dashboard.
  - rewrite fs_run_app. apply fs_run_write_json.
Qed.

Lemma save_drafts_overwrites_in_place_witness :
  @load_existing empty_codec (empty_store_fs !! dashboard_file) = Ok []
  /\ snd (@save_drafts empty_codec empty_store_fs [] "2025-01-01") = Ok ()
  /\ fs_run empty_store_fs (fst (@save_drafts empty_codec empty_store_fs [] "2025-01-01"))
       !! dashboard_file = Some "[]".
Proof.
  assert (@load_existing empty_codec (empty_store_fs !! dashboard_file) = Ok [])
    as H by reflexivity.
  split; [exact H|].
  pose proof (@save_drafts_overwrites_in_place empty_codec empty_store_fs [] []
                "2025-01-01" H) as (Hok & _ & _ & _ & _ & Hfinal).
  split; [exact Hok | exact Hfinal].
Defined.

(** * Further properties of the code *)

(** ** Candidate filter: errors and composition *)

(** X1: what one record does to the filter, by the value under its text
    key: no key or a string never raises; null, a boolean or a number
    raises [TypeError] at [len]; a list or a dictionary of fewer than 30
    items is skipped without a word, one of 30 or more raises
    [AttributeError] at [startswith]. *)
Theorem keep_post_by_text_value (p : post) :
  match p !! "text" with
  | None => keep_post p = Ok false
  | Some (PStr s) => keep_post p = Ok (eligible_text s)
  | Some (PList items) =>
      keep_post p = if (length items <? 30)%nat then Ok false
                    else Raise AttributeError
  | Some (PDict items) =>
      keep_post p = if (size items <? 30)%nat then Ok false
                    else Raise AttributeError
  | Some PNone | Some (PBool _) | Some (PNum _) => keep_post p = Raise TypeError
  end.
Proof.
  destruct (p !! "text") as [[| | |s|items|items]|] eqn:Hp.
  - unfold keep_post. by rewrite Hp.
  - unfold keep_post. by rewrite Hp.
  - unfold keep_post. by rewrite Hp.
  - by apply keep_post_str.
  - unfold keep_post. rewrite Hp. reflexivity.
  - unfold keep_post. rewrite Hp. reflexivity.
  - by apply keep_post_missing_text.
Qed.

Lemma filter_posts_from_ok_prefix (filtered before rest : list post) :
  Forall (fun q => exists b, keep_post q = Ok b) before ->
  exists kept,
    filter_posts_from filtered (before ++ rest)
    = filter_posts_from (filtered ++ kept) rest.
Proof.
  intros Hok. revert filtered.
  induction Hok as [|q before [b Hq] _ IH]; intros filtered.
  - exists []. by rewrite app_nil_r.
  - simpl. rewrite Hq. simpl.
    destruct b.
    + destruct (IH (filtered ++ [q])) as [kept Hk].
      exists (q :: kept). rewrite Hk. by rewrite <- app_assoc.
    + apply IH.
Qed.

Lemma filter_posts_from_raise (filtered posts : list post) (e : exn) :
  filter_posts_from filtered posts = Raise e ->
  exists before p after,
    posts = before ++ p :: after
    /\ Forall (fun q => exists b, keep_post q = Ok b) before
    /\ keep_post p = Raise e.
Proof.
  revert filtered. induction posts as [|q posts IH]; intros filtered; simpl.
  - discriminate.
  - destruct (keep_post q) as [b|e'] eqn:Hq; simpl.
    + intros (before & p & after & -> & Hok & Hp)%IH.
      exists (q :: before), p, after. split; [done|]. split; [|done].
      constructor; [by exists b | done].
    + intros [= ->]. exists [], q, posts. by repeat split.
Qed.

(** X2: the filter raises exactly when some record raises, and then with
    the error of the first such record: the posts accepted before it are
    lost, and the records after it are never looked at. *)
Theorem filter_posts_first_error (posts : list post) (e : exn) :
  filter_posts posts = Raise e
  <-> exists before p after,
        posts = before ++ p :: after
        /\ Forall (fun q => exists b, keep_post q = Ok b) before
        /\ keep_post p = Raise e.
Proof.
  split; [apply filter_posts_from_raise|].
  intros (before & p & after & -> & Hok & Hp). unfold filter_posts.
  destruct (filter_posts_from_ok_prefix [] before (p :: after) Hok) as [kept ->].
  simpl. by rewrite Hp.
Qed.

Lemma filter_posts_from_kept (filtered posts out : list post) :
  filter_posts_from filtered posts = Ok out ->
  exists kept, out = filtered ++ kept
               /\ Forall (fun q => keep_post q = Ok true) kept
               /\ sublist kept posts.
Proof.
  revert filtered. induction posts as [|q posts IH]; intros filtered; simpl.
  - intros [= <-]. exists []. by rewrite app_nil_r.
  - destruct (keep_post q) as [[]|e] eqn:Hq; simpl; [| |done].
    + intros (kept & -> & Hkept & Hsub)%IH. exists (q :: kept).
      rewrite <- app_assoc. split; [done|]. split; [by constructor|].
      by apply sublist_skip.
    + intros (kept & -> & Hkept & Hsub)%IH. exists kept.
      split; [done|]. split; [done|]. by apply sublist_cons.
Qed.

Lemma filter_posts_from_all_kept (filtered posts : list post) :
  Forall (fun q => keep_post q = Ok true) posts ->
  filter_posts_from filtered posts = Ok (filtered ++ posts).
Proof.
  intros Hall. revert filtered.
  induction Hall as [|q posts Hq _ IH]; intros filtered; simpl.
  - by rewrite app_nil_r.
  - rewrite Hq. simpl. rewrite IH. by rewrite <- app_assoc.
Qed.

(** X3: whatever the records hold, when the filter returns, its output
    is a subsequence of its input, every post in it passes the filter on
    its own, and filtering the output again returns it unchanged. *)
Theorem filter_posts_idempotent (posts out : list post) :
  filter_posts posts = Ok out ->
  sublist out posts
  /\ Forall (fun q => keep_post q = Ok true) out
  /\ filter_posts out = Ok out.
Proof.
  intros (kept & -> & Hkept & Hsub)%filter_posts_from_kept. simpl.
  split; [done|]. split; [done|].
  unfold filter_posts. by rewrite filter_posts_from_all_kept.
Qed.

(** ** URL removal *)

(** X4: removing URLs never adds a character, and it leaves a text
    unchanged exactly when no URL (http:// or https:// followed by a
    character that is not white space) starts anywhere in it. *)
Theorem strip_urls_unchanged_iff (s : string) :
  (String.length (strip_urls s) <= String.length s)%nat
  /\ (strip_urls s = s <-> forall t, suffix_of t s -> url_at t = false).
Proof.
  split; [apply sub_urls_length|]. split.
  - intros Hid t Hsuf. destruct (url_at t) eqn:Hurl; [|done].
    pose proof (strip_urls_shrinks s t Hsuf Hurl) as Hlt.
    rewrite Hid in Hlt. lia.
  - apply strip_urls_no_match.
Qed.

(** X5: a text that is nothing but one URL is emptied by the removal and
    is never eligible, however long it is; so a post is not kept for its
    link alone. *)
Theorem single_url_not_eligible (s : string) :
  url_at s = true -> all_chars non_space s = true ->
  strip_urls s = EmptyString /\ eligible_text s = false.
Proof.
  intros Hurl Hrun.
  assert (strip_urls s = EmptyString) as Hstrip.
  { unfold strip_urls. destruct s as [|c s]; [done|].
    simpl. rewrite Hurl. simpl in Hrun.
    apply andb_true_iff in Hrun as [_ Hrun]. by apply sub_urls_inside_run. }
  split; [done|]. unfold eligible_text. rewrite Hstrip.
  by rewrite andb_false_r.
Qed.

Lemma single_url_not_eligible_witness :
  url_at "https://example.com/a/very/long/path/that/exceeds/thirty" = true
  /\ all_chars non_space "https://example.com/a/very/long/path/that/exceeds/thirty" = true
  /\ eligible_text "https://example.com/a/very/long/path/that/exceeds/thirty" = false.
Proof.
  assert (url_at "https://example.com/a/very/long/path/that/exceeds/thirty" = true)
    as H1 by reflexivity.
  assert (all_chars non_space
            "https://example.com/a/very/long/path/that/exceeds/thirty" = true)
    as H2 by reflexivity.
  split; [exact H1|]. split; [exact H2|].
  exact (proj2 (single_url_not_eligible _ H1 H2)).
Defined.

Lemma filter_posts_idempotent_witness :
  filter_posts [post_without_text; scenario_post] = Ok [scenario_post]
  /\ filter_posts [scenario_post] = Ok [scenario_post].
Proof.
  assert (filter_posts [post_without_text; scenario_post] = Ok [scenario_post])
    as H by reflexivity.
  split; [exact H|].
  exact (proj2 (proj2 (filter_posts_idempotent _ _ H))).
Defined.

(** ** Similarity: the two ends of the scale *)

Lemma word_set_nonempty_size (text : string) :
  word_set text <> ∅ -> size (word_set text) <> 0%nat.
Proof. intros H Hs. by apply size_empty_iff, leibniz_equiv in Hs. Qed.

Lemma ratio_one (a b : nat) :
  b <> 0%nat -> (Z.of_nat a # Pos.of_nat b == 1)%Q <-> a = b.
Proof.
  intros Hb. unfold Qeq. simpl. rewrite Z.mul_1_r.
  assert (Z.pos (Pos.of_nat b) = Z.of_nat b) as -> by (destruct b; [done | lia]).
  lia.
Qed.

Lemma ratio_zero (a b : nat) :
  (Z.of_nat a # Pos.of_nat b == 0)%Q <-> a = 0%nat.
Proof. unfold Qeq. simpl. lia. Qed.

Lemma check_similarity_one_iff (source draft : string) :
  (check_similarity source draft == 1)%Q
  <-> word_set draft <> ∅ /\ word_set draft ⊆ word_set source.
Proof.
  destruct (decide (word_set draft = ∅)) as [He|Hne].
  - rewrite check_similarity_empty_draft_words by done.
    split; [intros H; vm_compute in H; discriminate | by intros [? _]].
  - rewrite check_similarity_ratio by done.
    pose proof (word_set_nonempty_size draft Hne) as Hsize.
    rewrite ratio_one by done. split.
    + intros Heq. split; [done|].
      assert (word_set source ∩ word_set draft ≡ word_set draft) as Hint.
      { apply set_subseteq_size_equiv; [apply intersection_subseteq_r | lia]. }
      intros w Hw. apply Hint in Hw. by apply elem_of_intersection in Hw as [? _].
    + intros [_ Hsub]. f_equal. apply leibniz_equiv.
      rewrite (comm_L (∩)). by apply subseteq_intersection_1.
Qed.

Lemma check_similarity_zero_iff (source draft : string) :
  (check_similarity source draft == 0)%Q
  <-> word_set source ∩ word_set draft = ∅.
Proof.
  destruct (decide (word_set draft = ∅)) as [He|Hne].
  - rewrite check_similarity_empty_draft_words by done.
    split; [intros _ | done]. rewrite He. apply leibniz_equiv.
    apply intersection_empty_r.
  - rewrite check_similarity_ratio by done. rewrite ratio_zero. split.
    + intros H0. by apply leibniz_equiv, size_empty_iff.
    + intros ->. apply size_empty.
Qed.

(** X6: the score is 1 exactly when the draft has at least one word and
    every word of the draft is a word of the source; it is 0 exactly when
    draft and source share no word. *)
Theorem check_similarity_extremes (source draft : string) :
  ((check_similarity source draft == 1)%Q
   <-> word_set draft <> ∅ /\ word_set draft ⊆ word_set source)
  /\ ((check_similarity source draft == 0)%Q
      <-> word_set source ∩ word_set draft = ∅).
Proof.
  split; [apply check_similarity_one_iff | apply check_similarity_zero_iff].
Qed.

Lemma word_set_nonempty_text (text : string) :
  word_set text <> ∅ -> text <> EmptyString.
Proof. intros H ->. by apply H. Qed.

(** X7: in the loop of [main], a generated text with at least one word
    whose words all occur in the source (a verbatim or re-cased copy, a
    reshuffle, an excerpt) is always skipped as too similar. *)
Theorem main_step_rejects_reused_words (source_text draft_text : string) :
  word_set draft_text <> ∅ -> word_set draft_text ⊆ word_set source_text ->
  main_step source_text (Some draft_text) = SkipTooSimilar.
Proof.
  intros Hne Hsub.
  rewrite main_step_some by by apply word_set_nonempty_text.
  assert (exceeds_threshold (check_similarity source_text draft_text) = true)
    as ->; [|done].
  apply exceeds_threshold_iff.
  assert (check_similarity source_text draft_text == 1)%Q as ->
    by by apply check_similarity_one_iff.
  done.
Qed.

Lemma main_step_rejects_reused_words_witness :
  word_set "GOOD today, gm!" <> ∅
  /\ word_set "GOOD today, gm!" ⊆ word_set "gm frens feeling good about the mint today"
  /\ main_step "gm frens feeling good about the mint today"
               (Some "GOOD today, gm!") = SkipTooSimilar.
Proof.
  assert (word_set "GOOD today, gm!" <> ∅) as H1.
  { intros H. apply (f_equal size) in H. vm_compute in H. discriminate. }
  assert (word_set "GOOD today, gm!"
          ⊆ word_set "gm frens feeling good about the mint today") as H2.
  { apply subseteq_intersection_2_L. apply (bool_decide_unpack _). by vm_compute. }
  split; [exact H1|]. split; [exact H2|].
  exact (main_step_rejects_reused_words _ _ H1 H2).
Defined.

(** X8: a non-empty generated text that shares no word with its source
    is always kept, whatever its length or content. *)
Theorem main_step_keeps_fresh_words (source_text draft_text : string) :
  draft_text <> EmptyString ->
  word_set source_text ∩ word_set draft_text = ∅ ->
  main_step source_text (Some draft_text) = Keep draft_text.
Proof.
  intros Hne Hdisj. rewrite main_step_some by done.
  assert (exceeds_threshold (check_similarity source_text draft_text) = false)
    as ->; [|done].
  destruct (exceeds_threshold _) eqn:He; [|done].
  apply exceeds_threshold_iff in He.
  assert (check_similarity source_text draft_text == 0)%Q as H0
    by by apply check_similarity_zero_iff.
  rewrite H0 in He. done.
Qed.

Lemma main_step_keeps_fresh_words_witness :
  "wagmi !!!" <> EmptyString
  /\ word_set "gm frens" ∩ word_set "wagmi !!!" = ∅
  /\ main_step "gm frens" (Some "wagmi !!!") = Keep "wagmi !!!".
Proof.
  assert ("wagmi !!!" <> EmptyString) as H1 by discriminate.
  assert (word_set "gm frens" ∩ word_set "wagmi !!!" = ∅) as H2.
  { apply (bool_decide_unpack _). by vm_compute. }
  split; [exact H1|]. split; [exact H2|].
  exact (main_step_keeps_fresh_words _ _ H1 H2).
Defined.

(** ** Clean-up: only the ends are touched *)

Lemma sub_trailing_quote_prefix (t : string) :
  ends_with is_space t = false ->
  exists post, t = sub_trailing_quote t +:+ post.
Proof.
  induction t as [|c t IH]; intros Hsp; [by exists EmptyString|]. simpl.
  destruct (is_quote c && at_end t) eqn:Hq.
  - apply andb_true_iff in Hq as [Hq Hend].
    destruct t as [|d [|e t]]; simpl in Hend; [| |done].
    + by exists (String c EmptyString).
    + apply N.eqb_eq in Hend. simpl in Hsp.
      unfold is_space, between in Hsp. rewrite Hend in Hsp. done.
  - destruct t as [|d t].
    + by exists EmptyString.
    + rewrite ends_with_cons in Hsp by done.
      destruct (IH Hsp) as [post Hpost]. exists post. simpl.
      by rewrite Hpost at 1.
Qed.

Lemma sub_quotes_infix (t : string) :
  ends_with is_space t = false -> infix_of (sub_quotes t) t.
Proof.
  intros Hsp. destruct t as [|c t]; [by exists EmptyString, EmptyString|].
  unfold sub_quotes. destruct (is_quote c).
  - destruct t as [|d t].
    + by exists (String c EmptyString), EmptyString.
    + rewrite ends_with_cons in Hsp by done.
      destruct (sub_trailing_quote_prefix _ Hsp) as [post Hpost].
      exists (String c EmptyString), post. simpl. by rewrite Hpost at 1.
  - destruct (sub_trailing_quote_prefix _ Hsp) as [post Hpost].
    by exists EmptyString, post.
Qed.

Lemma after_label_suffix (pat s r : string) :
  after_label pat s = Some r -> suffix_of r s.
Proof.
  revert s. induction pat as [|p pat IH]; intros s; simpl.
  - destruct s; intros [= <-]; apply suffix_of_refl.
  - destruct s as [|c s]; [done|].
    destruct (Ascii.eqb (lower_char c) p); [|done].
    intros [pre ->]%IH. by exists (String c pre).
Qed.

Lemma sub_label_suffix (s : string) : suffix_of (sub_label s) s.
Proof.
  unfold sub_label, match_label.
  destruct (after_label "post:" s) as [r|] eqn:H1.
  { eapply suffix_of_trans; [apply lstrip_suffix | by eapply after_label_suffix]. }
  destruct (after_label "tweet:" s) as [r|] eqn:H2.
  { eapply suffix_of_trans; [apply lstrip_suffix | by eapply after_label_suffix]. }
  destruct (after_label "draft:" s) as [r|] eqn:H3.
  { eapply suffix_of_trans; [apply lstrip_suffix | by eapply after_label_suffix]. }
  apply suffix_of_refl.
Qed.

(** X9: the clean-up of a model answer only cuts at the two ends: the
    cleaned text occurs in the raw answer as one unbroken piece, so no
    character inside it is changed, added or dropped, and it is never
    longer than the raw answer. *)
Theorem clean_draft_infix (raw : string) :
  infix_of (clean_draft raw) raw
  /\ (String.length (clean_draft raw) <= String.length raw)%nat.
Proof.
  assert (infix_of (clean_draft raw) raw) as Hinfix.
  { unfold clean_draft.
    destruct (lstrip_suffix raw) as [p1 H1].
    destruct (rstrip_prefix (lstrip raw)) as [q1 H2].
    destruct (sub_quotes_infix (strip raw) (strip_no_trailing_space raw))
      as (p2 & q2 & H3).
    destruct (sub_label_suffix (sub_quotes (strip raw))) as [p3 H4].
    exists (p1 +:+ p2 +:+ p3), (q2 +:+ q1).
    rewrite H1 at 1. rewrite H2 at 1. fold (strip raw).
    rewrite H3 at 1. rewrite H4 at 1.
    by rewrite !append_assoc. }
  split; [done|].
  destruct Hinfix as (pre & post & Heq).
  rewrite Heq at 2. rewrite !append_length. lia.
Qed.

(** ** Draft store: what a merge keeps *)

(** X10: the merged collection is the existing collection, untouched and
    in its order, followed by the batch drafts whose id the store did not
    have, in batch order.  A draft whose id the store already has never
    enters, so the stored draft (and a status edited on it) survives; a
    draft with a new id always enters. *)
Theorem append_new_keeps_existing (existing_drafts drafts : list Draft) :
  append_new existing_drafts drafts
  = existing_drafts
    ++ filter (fun d => draft_id d ∉ ids_of existing_drafts) drafts
  /\ (forall d, d ∈ append_new existing_drafts drafts ->
        draft_id d ∈ ids_of existing_drafts -> d ∈ existing_drafts)
  /\ (forall d, d ∈ drafts -> draft_id d ∉ ids_of existing_drafts ->
        d ∈ append_new existing_drafts drafts).
Proof.
  rewrite append_new_filter. split; [done|]. split.
  - intros d [Hd | Hd]%elem_of_app Hid; [done|].
    by apply list_elem_of_filter in Hd as [Hout _].
  - intros d Hd Hout. apply elem_of_app. right. by apply list_elem_of_filter.
Qed.

Lemma ltb_keys_differ (a b : Draft) :
  String.ltb (sort_key a) (sort_key b) = true -> sort_key a <> sort_key b.
Proof.
  unfold String.ltb. intros H Heq. rewrite Heq in H.
  pose proof (String.compare_antisym (sort_key b) (sort_key b)) as Hanti.
  destruct (String.compare (sort_key b) (sort_key b)); done.
Qed.

Lemma insert_desc_same_key (k : string) (d : Draft) (l : list Draft) :
  filter (fun x => sort_key x = k) (insert_desc d l)
  = filter (fun x => sort_key x = k) (d :: l).
Proof.
  induction l as [|y l IH]; simpl; [done|].
  destruct (String.ltb (sort_key d) (sort_key y)) eqn:Hlt; [|done].
  apply ltb_keys_differ in Hlt.
  rewrite (filter_cons _ y), IH, !(filter_cons _ d), (filter_cons _ y).
  destruct (decide (sort_key y = k)), (decide (sort_key d = k)); congruence.
Qed.

(** X11: the sort is stable: among drafts with the same [created_at]
    (or none), the order of the merged collection is kept, so existing
    drafts stay ahead of drafts appended with the same timestamp. *)
Theorem sort_desc_stable (k : string) (l : list Draft) :
  filter (fun d => sort_key d = k) (sort_desc l)
  = filter (fun d => sort_key d = k) l.
Proof.
  induction l as [|d l IH]; simpl; [done|].
  rewrite insert_desc_same_key, !(filter_cons _ d), IH. done.
Qed.

(** X12: when the ids of the store are pairwise distinct and so are the
    ids of the batch, the ids of the collection that is persisted are
    pairwise distinct. *)
Theorem merge_drafts_distinct_ids (existing_drafts drafts : list Draft) :
  NoDup (draft_id <$> existing_drafts) -> NoDup (draft_id <$> drafts) ->
  NoDup (draft_id <$> merge_drafts existing_drafts drafts).
Proof.
  intros He Hd. unfold merge_drafts.
  apply (sublist_NoDup _ (draft_id <$> sort_desc (append_new existing_drafts drafts))).
  - rewrite sort_desc_perm. by apply append_new_distinct_ids.
  - apply fmap_sublist, sublist_take.
Qed.

Lemma merge_drafts_distinct_ids_witness :
  NoDup (draft_id <$> full_store) /\ NoDup (draft_id <$> replayed_batch)
  /\ NoDup (draft_id <$> merge_drafts full_store replayed_batch).
Proof.
  assert (NoDup (draft_id <$> full_store)) as H1.
  { apply (bool_decide_unpack _). by vm_compute. }
  assert (NoDup (draft_id <$> replayed_batch)) as H2.
  { apply (bool_decide_unpack _). by vm_compute. }
  split; [exact H1|]. split; [exact H2|].
  exact (merge_drafts_distinct_ids _ _ H1 H2).
Defined.

(** X13: a run that generates no draft leaves the content of a store
    written by an earlier run as it is: merging the empty batch into the
    result of any merge returns that result. *)
Theorem merge_drafts_empty_batch (existing_drafts drafts : list Draft) :
  merge_drafts (merge_drafts existing_drafts drafts) []
  = merge_drafts existing_drafts drafts.
Proof.
  unfold merge_drafts at 1. rewrite append_new_filter, app_nil_r.
  apply merge_drafts_fixed; [apply merge_drafts_sorted|].
  rewrite merge_drafts_length. lia.
Qed.

(** ** The generation loop *)

Lemma main_loop_app (w : World) (i : nat) (drafts : list Draft)
    (posts : list SourcePost) :
  exists new, main_loop w i drafts posts = drafts ++ new
    /\ (draft_content <$> new)
       = omap id (imap (fun j p => kept_at w (i + j) p) posts)
    /\ (draft_id <$> new)
       = (fun k => Some (uuid w k)) <$> seq (length drafts) (length new)
    /\ (draft_created_at <$> new)
       = (fun k => Some (clock w k)) <$> seq (length drafts) (length new)
    /\ Forall (fun d => draft_status d = "pending" /\ draft_notes d = EmptyString) new.
Proof.
  revert i drafts. induction posts as [|p posts IH]; intros i drafts.
  - exists []. simpl. by rewrite app_nil_r.
  - cbn [main_loop imap]. unfold kept_at at 1. rewrite Nat.add_0_r.
    assert (imap ((fun j q => kept_at w (i + j) q) ∘ S) posts
            = imap (fun j q => kept_at w (S i + j) q) posts) as ->.
    { apply imap_ext. intros j q _. simpl. f_equal. lia. }
    destruct (verdict_at w i p) as [| |text] eqn:Hv.
    + destruct (IH (S i) drafts) as (new & Hnew & Ht & Hi & Hc & Hp).
      exists new. repeat split; try done; by rewrite Ht.
    + destruct (IH (S i) drafts) as (new & Hnew & Ht & Hi & Hc & Hp).
      exists new. repeat split; try done; by rewrite Ht.
    + destruct (IH (S i) (drafts ++ [new_draft p text (uuid w (length drafts))
                                      (clock w (length drafts))]))
        as (new & Hnew & Ht & Hi & Hc & Hp).
      exists (new_draft p text (uuid w (length drafts)) (clock w (length drafts)) :: new).
      rewrite Hnew, <- app_assoc. split; [done|].
      rewrite length_app in Hi, Hc. simpl in Hi, Hc.
      rewrite Nat.add_1_r in Hi, Hc.
      rewrite !fmap_cons, Ht, Hi, Hc.
      repeat split; try done; by constructor.
Qed.

Lemma generate_drafts_spec (w : World) (posts : list SourcePost) :
  (draft_content <$> generate_drafts w posts)
  = omap id (imap (kept_at w) (take MAX_POSTS_TO_PROCESS posts))
  /\ (draft_id <$> generate_drafts w posts)
     = (fun k => Some (uuid w k)) <$> seq 0 (length (generate_drafts w posts))
  /\ (draft_created_at <$> generate_drafts w posts)
     = (fun k => Some (clock w k)) <$> seq 0 (length (generate_drafts w posts))
  /\ Forall (fun d => draft_status d = "pending" /\ draft_notes d = EmptyString)
            (generate_drafts w posts).
Proof.
  unfold generate_drafts.
  destruct (main_loop_app w 0 [] (take MAX_POSTS_TO_PROCESS posts))
    as (new & -> & Ht & Hi & Hc & Hp).
  done.
Qed.

Lemma omap_id_length {A} (l : list (option A)) :
  (length (omap id l) <= length l)%nat.
Proof. induction l as [|[x|] l IH]; cbn in *; lia. Qed.

(** X17: the drafts of a run are decided post by post.  Each of the
    first ten filtered posts gives at most one draft, whose text and
    source depend on that post and on the answer to its own call only;
    drafts come in the order of their posts; a failed call or a rejected
    answer for one post changes nothing for the others, and posts after
    the tenth are never used.  So a run yields at most ten drafts. *)
Theorem generate_drafts_post_by_post (w : World) (posts : list SourcePost) :
  (draft_content <$> generate_drafts w posts)
  = omap id (imap (kept_at w) (take 10 posts))
  /\ (length (generate_drafts w posts) <= Nat.min 10 (length posts))%nat.
Proof.
  destruct (generate_drafts_spec w posts) as (Hc & _).
  split; [exact Hc|].
  rewrite <- (length_fmap draft_content), Hc.
  etrans; [apply omap_id_length|].
  by rewrite length_imap, length_take.
Qed.

Lemma elem_of_omap_imap {A B} (f : nat -> A -> option B) (l : list A) (y : B) :
  y ∈ omap id (imap f l) -> exists i x, l !! i = Some x /\ f i x = Some y.
Proof.
  revert f. induction l as [|x l IH]; intros f; simpl.
  - by intros ?%elem_of_nil.
  - destruct (f 0%nat x) as [z|] eqn:Hz; simpl.
    + intros [-> | Hy]%elem_of_cons.
      * by exists 0%nat, x.
      * destruct (IH _ Hy) as (i & x' & Hl & Hf). by exists (S i), x'.
    + intros Hy. destruct (IH _ Hy) as (i & x' & Hl & Hf). by exists (S i), x'.
Qed.

Lemma kept_at_inv (w : World) (i : nat) (p : SourcePost) (text : string) (s : Source) :
  kept_at w i p = Some (text, s) ->
  s = source_of p
  /\ text <> EmptyString
  /\ (exists raw, api w i = Some raw /\ text = clean_draft raw)
  /\ (check_similarity (source_text (source_of p)) text <= 1 # 2)%Q.
Proof.
  unfold kept_at, verdict_at, main_step, generate_draft.
  destruct (api w i) as [raw|]; simpl; [|done].
  destruct (clean_draft raw) as [|c t] eqn:Hclean; [done|].
  destruct (exceeds_threshold _) eqn:He; [done|].
  intros [= <- <-]. split; [done|]. split; [done|].
  split; [by exists raw|].
  apply Qnot_lt_le. intros Hlt. apply exceeds_threshold_iff in Hlt.
  simpl in Hlt. congruence.
Qed.

(** X18: every draft of a run is well formed: its status is "pending",
    its notes are empty, it has an id and a creation time, and it comes
    from one of the first ten posts, whose username, text and permalink
    it records; its text is the cleaned answer to that post's call, is
    not empty, and scores at most 0.5 against the text of that post. *)
Theorem generate_drafts_well_formed (w : World) (posts : list SourcePost)
    (d : Draft) :
  d ∈ generate_drafts w posts ->
  draft_status d = "pending" /\ draft_notes d = EmptyString
  /\ is_Some (draft_id d) /\ is_Some (draft_created_at d)
  /\ exists i p raw,
       (i < 10)%nat /\ posts !! i = Some p
       /\ draft_source d = source_of p
       /\ api w i = Some raw /\ draft_text d = clean_draft raw
       /\ draft_text d <> EmptyString
       /\ (check_similarity (default EmptyString (post_text p)) (draft_text d)
           <= 1 # 2)%Q.
Proof.
  intros Hd. destruct (generate_drafts_spec w posts) as (Hc & Hi & Ht & Hp).
  rewrite Forall_forall in Hp. destruct (Hp d Hd) as [Hs Hn].
  split; [done|]. split; [done|].
  split.
  { assert (draft_id d ∈ draft_id <$> generate_drafts w posts) as Hin
      by (apply list_elem_of_fmap; by exists d).
    rewrite Hi in Hin. apply list_elem_of_fmap in Hin as (k & -> & _). by eexists. }
  split.
  { assert (draft_created_at d ∈ draft_created_at <$> generate_drafts w posts) as Hin
      by (apply list_elem_of_fmap; by exists d).
    rewrite Ht in Hin. apply list_elem_of_fmap in Hin as (k & -> & _). by eexists. }
  assert (draft_content d ∈ draft_content <$> generate_drafts w posts) as Hin
    by (apply list_elem_of_fmap; by exists d).
  rewrite Hc in Hin. apply elem_of_omap_imap in Hin as (i & p & Hl & Hk).
  apply lookup_take_Some in Hl as [Hl Hlt].
  apply kept_at_inv in Hk as (Hsrc & Hne & (raw & Hraw & Htext) & Hscore).
  exists i, p, raw. unfold draft_content in *. simpl in *.
  repeat split; try done.
Qed.

Lemma generate_drafts_well_formed_witness :
  new_draft sample_source_post "wagmi, ser" "0" "2025-01-10"
    ∈ generate_drafts sample_world [sample_source_post]
  /\ draft_status (new_draft sample_source_post "wagmi, ser" "0" "2025-01-10")
     = "pending".
Proof.
  assert (new_draft sample_source_post "wagmi, ser" "0" "2025-01-10"
            ∈ generate_drafts sample_world [sample_source_post]) as H.
  { vm_compute. apply elem_of_cons. by left. }
  split; [exact H|].
  exact (proj1 (generate_drafts_well_formed _ _ _ H)).
Defined.

(** X19: when the identifier source never repeats itself and the ids of
    the store are pairwise distinct, the ids of the store stay pairwise
    distinct after the drafts of a run are merged into it. *)
Theorem generate_drafts_keep_ids_distinct (w : World) (posts : list SourcePost)
    (existing_drafts : list Draft) :
  (forall j k, uuid w j = uuid w k -> j = k) ->
  NoDup (draft_id <$> existing_drafts) ->
  NoDup (draft_id <$> generate_drafts w posts)
  /\ NoDup (draft_id <$> merge_drafts existing_drafts (generate_drafts w posts)).
Proof.
  intros Hinj Hstore.
  assert (NoDup (draft_id <$> generate_drafts w posts)) as Hbatch.
  { destruct (generate_drafts_spec w posts) as (_ & -> & _).
    apply NoDup_fmap_2; [|apply NoDup_seq].
    intros j k [= Hjk]. by apply Hinj. }
  split; [done|].
  apply (sublist_NoDup _ (draft_id <$> sort_desc
                            (append_new existing_drafts (generate_drafts w posts)))).
  - rewrite sort_desc_perm. by apply append_new_distinct_ids.
  - apply fmap_sublist, sublist_take.
Qed.

Lemma generate_drafts_keep_ids_distinct_witness :
  (forall j k, uuid sample_world j = uuid sample_world k -> j = k)
  /\ NoDup (draft_id <$> full_store)
  /\ NoDup (draft_id <$> merge_drafts full_store
                           (generate_drafts sample_world [sample_source_post])).
Proof.
  assert (forall j k, uuid sample_world j = uuid sample_world k -> j = k) as H1.
  { intros j k Hjk. by apply (inj pretty). }
  assert (NoDup (draft_id <$> full_store)) as H2.
  { apply (bool_decide_unpack _). by vm_compute. }
  split; [exact H1|]. split; [exact H2|].
  exact (proj2 (generate_drafts_keep_ids_distinct sample_world
                  [sample_source_post] full_store H1 H2)).
Defined.

(** ** Voice profile *)

Lemma split_at_eq (pat s : string) :
  split_at pat s
  = match after_prefix pat s with
    | Some rest => Some (EmptyString, rest)
    | None =>
        match s with
        | EmptyString => None
        | String c s' =>
            match split_at pat s' with
            | Some (before, rest) => Some (String c before, rest)
            | None => None
            end
        end
    end.
Proof. by destruct s. Qed.

Lemma split_at_sound (pat s a b : string) :
  split_at pat s = Some (a, b) -> s = a +:+ pat +:+ b.
Proof.
  revert a. induction s as [|c s IH]; intros a; rewrite split_at_eq.
  - destruct (after_prefix pat EmptyString) as [r|] eqn:E; [|done].
    intros [= <- <-]. simpl. by apply after_prefix_sound.
  - destruct (after_prefix pat (String c s)) as [r|] eqn:E.
    + intros [= <- <-]. simpl. by apply after_prefix_sound.
    + destruct (split_at pat s) as [[a' b']|]; [|done].
      intros [= <- <-]. simpl. f_equal. by apply IH.
Qed.

Lemma section_after_at (heading content before body : string) :
  fst <$> split_at (heading +:+ nl) content = Some before ->
  content = before +:+ (heading +:+ nl) +:+ body ->
  section_after heading content = Some (until_marker body).
Proof.
  intros Hfirst Hcontent. unfold section_after.
  destruct (split_at (heading +:+ nl) content) as [[a b]|] eqn:E; [|done].
  simpl in Hfirst. injection Hfirst as ->.
  apply split_at_sound in E. rewrite Hcontent in E.
  apply append_inv_head, append_inv_head in E. by rewrite E.
Qed.

Lemma until_marker_eq (c : ascii) (s : string) :
  until_marker (String c s)
  = if at_marker (String c s) then EmptyString else String c (until_marker s).
Proof. reflexivity. Qed.

Lemma until_marker_at (rest : string) :
  at_marker rest = true -> until_marker rest = EmptyString.
Proof. destruct rest as [|c r]; [done|]. intros H. by rewrite until_marker_eq, H. Qed.

Lemma at_marker_other (c : ascii) (s : string) :
  (code c =? 35)%N = false -> (code c =? 45)%N = false ->
  at_marker (String c s) = false.
Proof.
  intros H1 H2. unfold at_marker. rewrite !prefix_cons.
  destruct (ascii_dec "#" c) as [e|_].
  { subst c. by vm_compute in H1. }
  destruct (ascii_dec "-" c) as [e|_]; [|done].
  subst c. by vm_compute in H2.
Qed.

Lemma plain_char_codes (c : ascii) :
  plain_char c = true ->
  (code c =? 10)%N = false /\ (code c =? 35)%N = false /\ (code c =? 45)%N = false.
Proof.
  unfold plain_char. intros H. apply negb_true_iff in H.
  apply orb_false_iff in H as [H H3]. apply orb_false_iff in H as [H1 H2]. done.
Qed.

Lemma until_marker_label (l rest : string) :
  all_chars plain_char l = true ->
  until_marker (l +:+ rest) = l +:+ until_marker rest.
Proof.
  induction l as [|c l IH]; [done|]. cbn [all_chars].
  intros [Hc Hl]%andb_true_iff. apply plain_char_codes in Hc as (_ & H1 & H2).
  change (String c l +:+ rest) with (String c (l +:+ rest)).
  rewrite until_marker_eq, at_marker_other by done. by rewrite IH.
Qed.

Lemma until_marker_bullet (l rest : string) :
  all_chars plain_char l = true ->
  until_marker (("- " +:+ l) +:+ rest) = ("- " +:+ l) +:+ until_marker rest.
Proof.
  intros Hl. rewrite append_assoc.
  change (until_marker ("- " +:+ l +:+ rest))
    with ("- " +:+ until_marker (l +:+ rest)).
  by rewrite until_marker_label, append_assoc.
Qed.

Lemma until_marker_nl (rest : string) :
  until_marker (nl +:+ rest) = nl +:+ until_marker rest.
Proof. reflexivity. Qed.

Lemma join_cons (sep x y : string) (l : list string) :
  join sep (x :: y :: l) = x +:+ sep +:+ join sep (y :: l).
Proof. reflexivity. Qed.

Lemma until_marker_lines (labels : list string) (rest : string) :
  Forall (fun l => all_chars plain_char l = true) labels ->
  until_marker (join nl (bullet <$> labels) +:+ rest)
  = join nl (bullet <$> labels) +:+ until_marker rest.
Proof.
  induction labels as [|l ls IH]; [done|].
  intros [Hl Hls]%Forall_cons. destruct ls as [|l' ls].
  - by apply until_marker_bullet.
  - rewrite !fmap_cons in *.
    rewrite join_cons, !append_assoc. unfold bullet at 1 3.
    rewrite until_marker_bullet by done. f_equal.
    rewrite until_marker_nl. f_equal.
    rewrite <- IH by done. done.
Qed.

Lemma bullets_capture (l rest : string) :
  no_newline l = true ->
  bullets Capture (l +:+ nl +:+ rest) = l :: bullets Scan rest.
Proof.
  unfold no_newline. induction l as [|c l IH]; [reflexivity|]. cbn [all_chars].
  intros [Hc Hl]%andb_true_iff. apply negb_true_iff in Hc.
  change (bullets Capture (String c l +:+ nl +:+ rest))
    with (if (code c =? 10)%N then EmptyString :: bullets Scan (l +:+ nl +:+ rest)
          else push c (bullets Capture (l +:+ nl +:+ rest))).
  rewrite Hc, IH by done. done.
Qed.

Lemma bullets_bullet (l rest : string) :
  no_newline l = true ->
  bullets Scan (bullet l +:+ nl +:+ rest) = l :: bullets Scan rest.
Proof.
  intros Hl. unfold bullet. rewrite append_assoc.
  change (bullets Scan ("- " +:+ l +:+ nl +:+ rest))
    with (if String.prefix "- " ("- " +:+ l +:+ nl +:+ rest)
          then bullets Capture (l +:+ nl +:+ rest)
          else bullets Scan (" " +:+ l +:+ nl +:+ rest)).
  rewrite prefix_append. by apply bullets_capture.
Qed.

Lemma bullets_lines (labels : list string) (rest : string) :
  labels <> [] ->
  Forall (fun l => no_newline l = true) labels ->
  bullets Scan (join nl (bullet <$> labels) +:+ nl +:+ rest)
  = labels ++ bullets Scan rest.
Proof.
  induction labels as [|l ls IH]; [done|].
  intros _ [Hl Hls]%Forall_cons. destruct ls as [|l' ls].
  - by apply bullets_bullet.
  - rewrite !fmap_cons in *.
    rewrite join_cons, !append_assoc.
    rewrite bullets_bullet by done.
    change ((l :: l' :: ls) ++ bullets Scan rest)
      with (l :: ((l' :: ls) ++ bullets Scan rest)).
    f_equal. by apply IH.
Qed.

Lemma plain_label_parts (l : string) :
  plain_label l = true ->
  all_chars plain_char l = true /\ no_newline l = true /\ strip l = l.
Proof.
  unfold plain_label. intros [[H1 H2]%andb_true_iff H3]%andb_true_iff.
  apply negb_true_iff in H2, H3. split; [done|]. split.
  - apply (all_chars_impl plain_char); [|done].
    intros c Hc. apply plain_char_codes in Hc as (-> & _). done.
  - by apply strip_id.
Qed.

Lemma topics_written (labels : list string) (rest : string) :
  labels <> [] ->
  Forall (fun l => plain_label l = true) labels ->
  at_marker rest = true ->
  strip <$> bullets Scan
              (until_marker (join nl (bullet <$> labels) +:+ nl +:+ nl +:+ rest))
  = labels.
Proof.
  intros Hne Hlabels Hrest.
  assert (Forall (fun l => all_chars plain_char l = true) labels) as Hplain.
  { eapply Forall_impl; [exact Hlabels|].
    intros l Hl. by apply plain_label_parts in Hl as (? & _). }
  assert (Forall (fun l => no_newline l = true) labels) as Hline.
  { eapply Forall_impl; [exact Hlabels|].
    intros l Hl. by apply plain_label_parts in Hl as (_ & ? & _). }
  rewrite until_marker_lines by done.
  rewrite !until_marker_nl, (until_marker_at rest) by done.
  rewrite bullets_lines by done.
  change (bullets Scan (nl +:+ EmptyString)) with (@nil string).
  rewrite app_nil_r. clear Hne Hplain Hline.
  induction Hlabels as [|l ls Hl _ IH]; [done|].
  destruct (plain_label_parts _ Hl) as (_ & _ & Hs).
  by rewrite fmap_cons, Hs, IH.
Qed.

(** X20.  The topics section as [update_voice_profile] builds it is read
    back by [load_voice_profile]: when the first Topics heading of the
    document is the written one, the section is followed by a blank line
    and the next heading or a rule, and every title is plain (no
    newline, hash or dash, no white space at either end), the topics
    read are the titles written, in order; with no topic, the
    placeholder is read as the single topic General. *)
Theorem parse_voice_profile_topics_written (title : string -> string)
    (topics : list string) (before rest content : string) :
  content = before +:+ topics_section title topics +:+ nl +:+ nl +:+ rest ->
  fst <$> split_at ("### Topics" +:+ nl) content = Some before ->
  Forall (fun topic => plain_label (title topic) = true) topics ->
  at_marker rest = true ->
  profile_topics (parse_voice_profile content)
  = match topics with
    | [] => ["General"]
    | _ => title <$> topics
    end.
Proof.
  intros Hcontent Hfirst Hplain Hrest.
  set (labels := match topics with [] => ["General"] | _ => title <$> topics end).
  assert (topics_section title topics
          = ("### Topics" +:+ nl) +:+ join nl (bullet <$> labels)) as Hsection.
  { subst labels. destruct topics as [|t ts]; [reflexivity|].
    unfold topics_section. rewrite append_assoc. do 2 f_equal.
    by rewrite <- list_fmap_compose. }
  assert (labels <> []) as Hne.
  { subst labels. by destruct topics. }
  assert (Forall (fun l => plain_label l = true) labels) as Hlabels.
  { subst labels. destruct topics as [|t ts].
    - by repeat constructor.
    - by apply Forall_fmap. }
  rewrite Hsection, append_assoc in Hcontent.
  cbn [parse_voice_profile profile_topics].
  rewrite (section_after_at _ _ _ _ Hfirst Hcontent).
  by apply topics_written.
Qed.

Lemma parse_voice_profile_topics_written_witness :
  profile_topics (parse_voice_profile sample_profile) = ["Nft"; "Community"].
Proof.
  apply (parse_voice_profile_topics_written (fun t => t) ["Nft"; "Community"]
           sample_profile_head sample_profile_tail sample_profile).
  - reflexivity.
  - reflexivity.
  - by repeat constructor.
  - reflexivity.
Defined.

Lemma find_fences_eq_outside (c : ascii) (s : string) :
  find_fences 0 None (String c s)
  = if String.prefix fence_open (String c s)
    then find_fences 3 (Some EmptyString) s
    else find_fences 0 None s.
Proof. reflexivity. Qed.

Lemma find_fences_eq_inside (body : string) (c : ascii) (s : string) :
  find_fences 0 (Some body) (String c s)
  = if String.prefix fence_close (String c s)
    then body :: find_fences 3 None s
    else find_fences 0 (Some (body +:+ String c EmptyString)) s.
Proof. reflexivity. Qed.

Lemma no_backtick_cons (c : ascii) (s : string) :
  no_backtick (String c s) = true -> backtick <> c /\ no_backtick s = true.
Proof.
  unfold no_backtick. cbn [all_chars]. intros [Hc Hs]%andb_true_iff.
  split; [|done]. intros <-. by vm_compute in Hc.
Qed.

Lemma prefix_fence_other (c : ascii) (s : string) :
  backtick <> c -> String.prefix fence (String c s) = false.
Proof.
  intros Hc. unfold fence. rewrite prefix_cons.
  by destruct (ascii_dec backtick c).
Qed.

Lemma find_fences_plain (pre rest : string) :
  no_backtick pre = true ->
  find_fences 0 None (pre +:+ rest) = find_fences 0 None rest.
Proof.
  induction pre as [|c pre IH]; [done|].
  intros [Hc Hpre]%no_backtick_cons.
  change (String c pre +:+ rest) with (String c (pre +:+ rest)).
  rewrite find_fences_eq_outside.
  unfold fence_open, fence. change (String backtick ?x +:+ nl)
    with (String backtick (x +:+ nl)).
  rewrite prefix_cons. destruct (ascii_dec backtick c); [done|]. auto.
Qed.

Lemma find_fences_plain_end (s : string) :
  no_backtick s = true -> find_fences 0 None s = [].
Proof.
  intros Hs. rewrite <- (append_nil_r s). by rewrite find_fences_plain.
Qed.

Lemma find_fences_body (body ex rest : string) :
  no_backtick ex = true ->
  find_fences 0 (Some body) (ex +:+ fence_close +:+ rest)
  = (body +:+ ex) :: find_fences 0 None rest.
Proof.
  revert body. induction ex as [|c ex IH]; intros body Hex.
  - rewrite append_nil_r.
    change (EmptyString +:+ fence_close +:+ rest)
      with (String newline (fence +:+ rest)).
    rewrite find_fences_eq_inside.
    change (String newline (fence +:+ rest)) with (fence_close +:+ rest).
    by rewrite prefix_append.
  - apply no_backtick_cons in Hex as [Hc Hex].
    change (String c ex +:+ fence_close +:+ rest)
      with (String c (ex +:+ fence_close +:+ rest)).
    rewrite find_fences_eq_inside.
    assert (String.prefix fence_close (String c (ex +:+ fence_close +:+ rest))
            = false) as ->.
    { change fence_close with (String newline fence). rewrite prefix_cons.
      destruct (ascii_dec newline c) as [_|_]; [|done].
      destruct ex as [|d ex]; [reflexivity|].
      apply no_backtick_cons in Hex as [Hd _].
      by apply prefix_fence_other. }
    rewrite IH by done. by rewrite append_assoc.
Qed.

Lemma find_fences_fenced (ex rest : string) :
  no_backtick ex = true ->
  find_fences 0 None (fenced ex +:+ rest) = ex :: find_fences 0 None rest.
Proof.
  intros Hex. unfold fenced.
  replace ((fence +:+ nl +:+ ex +:+ nl +:+ fence) +:+ rest)
    with (fence_open +:+ ex +:+ fence_close +:+ rest)
    by (unfold fence_open, fence_close; by rewrite !append_assoc).
  change (fence_open +:+ ex +:+ fence_close +:+ rest)
    with (String backtick (String backtick (String backtick (String newline
            (ex +:+ fence_close +:+ rest))))).
  rewrite find_fences_eq_outside.
  change (String backtick (String backtick (String backtick (String newline
            (ex +:+ fence_close +:+ rest)))))
    with (fence_open +:+ ex +:+ fence_close +:+ rest).
  rewrite prefix_append.
  change (find_fences 3 (Some EmptyString)
            (String backtick (String backtick (String newline
               (ex +:+ fence_close +:+ rest)))))
    with (find_fences 0 (Some EmptyString) (ex +:+ fence_close +:+ rest)).
  by rewrite find_fences_body.
Qed.

Lemma find_fences_joined (examples : list string) (rest : string) :
  Forall (fun ex => no_backtick ex = true) examples ->
  no_backtick rest = true ->
  find_fences 0 None (join (nl +:+ nl) (fenced <$> examples) +:+ rest) = examples.
Proof.
  intros Hexamples Hrest.
  induction examples as [|ex exs IH].
  - by apply find_fences_plain_end.
  - apply Forall_cons in Hexamples as [Hex Hexs]. destruct exs as [|ex' exs].
    + cbn [fmap list_fmap join]. rewrite find_fences_fenced by done.
      by rewrite find_fences_plain_end.
    + rewrite !fmap_cons in *. rewrite join_cons, !append_assoc.
      rewrite find_fences_fenced by done. f_equal.
      rewrite <- append_assoc, find_fences_plain by done. by apply IH.
Qed.

Lemma filter_strip_id (examples : list string) :
  Forall (fun ex => strip ex = ex /\ (20 < String.length ex)%nat) examples ->
  filter (fun ex => (20 < String.length ex)%nat) (strip <$> examples) = examples.
Proof.
  induction 1 as [|ex exs [Hs Hlen] _ IH]; [done|].
  rewrite fmap_cons, Hs, filter_cons_True by done. by rewrite IH.
Qed.

Lemma examples_section_read (examples : list string) (before rest : string) :
  no_backtick before = true ->
  no_backtick rest = true ->
  Forall (fun ex => no_backtick ex = true) examples ->
  find_fences 0 None (before +:+ examples_section examples +:+ rest) = examples.
Proof.
  intros Hbefore Hrest Hexamples.
  rewrite find_fences_plain by done. destruct examples as [|ex exs].
  - by apply find_fences_plain_end.
  - unfold examples_section. rewrite !append_assoc.
    rewrite (find_fences_plain "## Example Posts") by reflexivity.
    rewrite (find_fences_plain nl), (find_fences_plain nl) by reflexivity.
    by apply find_fences_joined.
Qed.

(** X21.  The examples section that [update_voice_profile] puts into the
    document is read back by [load_voice_profile].  The section and the
    rule under it go through [re.sub] as the replacement; when no
    example holds a backslash the replacement is inserted as it is, and
    then, in a document with no backtick before or after it and none
    inside an example, the examples read are the written ones, each
    stripped, without those of 20 characters or fewer.  Written examples
    that are stripped and longer than that are read back unchanged, and
    the placeholder of an empty list gives no example. *)
Theorem parse_voice_profile_examples_written (examples : list string)
    (before written rest content : string) :
  expand_template (new_examples_section examples) = Some written ->
  content = before +:+ written +:+ rest ->
  no_backtick before = true ->
  no_backtick rest = true ->
  Forall (fun ex => no_backtick ex = true) examples ->
  profile_examples (parse_voice_profile content)
  = filter (fun ex => (20 < String.length ex)%nat) (strip <$> examples)
  /\ (Forall (fun ex => strip ex = ex /\ (20 < String.length ex)%nat) examples ->
      profile_examples (parse_voice_profile content) = examples).
Proof.
  intros Hwritten -> Hbefore Hrest Hexamples.
  unfold expand_template in Hwritten.
  destruct (no_backslash (new_examples_section examples)); [|done].
  injection Hwritten as <-.
  assert (find_fences 0 None (before +:+ new_examples_section examples +:+ rest)
          = examples) as Hfound.
  { unfold new_examples_section. rewrite !append_assoc.
    apply examples_section_read; [done | | done].
    unfold no_backtick in *. by rewrite !all_chars_app, Hrest. }
  cbn [parse_voice_profile profile_examples]. rewrite Hfound.
  split; [done|]. apply filter_strip_id.
Qed.

Lemma parse_voice_profile_examples_written_witness :
  no_backslash (new_examples_section ["gm frens, we are so back today"; "short one"])
  = true
  /\ profile_examples (parse_voice_profile updated_profile)
     = ["gm frens, we are so back today"].
Proof.
  split; [reflexivity|].
  exact (proj1 (parse_voice_profile_examples_written
                  ["gm frens, we are so back today"; "short one"]
                  sample_profile_head
                  (new_examples_section
                     ["gm frens, we are so back today"; "short one"])
                  EmptyString updated_profile
                  eq_refl eq_refl eq_refl eq_refl
                  ltac:(by repeat constructor))).
Defined.

Lemma at_marker_before_nl (body rest : string) :
  at_marker (body +:+ nl +:+ rest) = at_marker body.
Proof.
  unfold at_marker.
  destruct body as [|c [|d [|e body]]].
  - reflexivity.
  - change (String c EmptyString +:+ nl +:+ rest) with (String c (String newline rest)).
    rewrite !prefix_cons.
    destruct (ascii_dec "#" c), (ascii_dec "-" c); reflexivity.
  - change (String c (String d EmptyString) +:+ nl +:+ rest)
      with (String c (String d (String newline rest))).
    rewrite !prefix_cons.
    destruct (ascii_dec "#" c), (ascii_dec "-" c), (ascii_dec "#" d),
      (ascii_dec "-" d); reflexivity.
  - change (String c (String d (String e body)) +:+ nl +:+ rest)
      with (String c (String d (String e (body +:+ nl +:+ rest)))).
    rewrite !prefix_cons, !prefix_nil.
    destruct (ascii_dec "#" c), (ascii_dec "-" c), (ascii_dec "#" d),
      (ascii_dec "-" d), (ascii_dec "#" e), (ascii_dec "-" e); reflexivity.
Qed.

Lemma until_marker_body (body rest : string) :
  no_marker body = true ->
  until_marker (body +:+ nl +:+ rest) = body +:+ until_marker (nl +:+ rest).
Proof.
  induction body as [|c body IH]; [done|]. cbn [no_marker].
  intros [Hc Hbody]%andb_true_iff. apply negb_true_iff in Hc.
  pose proof (at_marker_before_nl (String c body) rest) as Hat.
  rewrite Hc in Hat.
  change (String c body +:+ nl +:+ rest) with (String c (body +:+ nl +:+ rest)) in *.
  by rewrite until_marker_eq, Hat, IH.
Qed.

(** X22.  The tone section is read back as written: when the first Tone
    heading of the document is followed by a body in which no run of
    three hashes or three dashes starts, a blank line and then the next
    heading or a rule, the tone read is that body, stripped. *)
Theorem parse_voice_profile_tone_written (body before rest content : string) :
  content = before +:+ ("### Tone" +:+ nl) +:+ body +:+ nl +:+ nl +:+ rest ->
  fst <$> split_at ("### Tone" +:+ nl) content = Some before ->
  no_marker body = true ->
  at_marker rest = true ->
  profile_tone (parse_voice_profile content) = strip body.
Proof.
  intros Hcontent Hfirst Hbody Hrest.
  cbn [parse_voice_profile profile_tone].
  rewrite (section_after_at _ _ _ _ Hfirst Hcontent).
  rewrite until_marker_body, !until_marker_nl, (until_marker_at rest) by done.
  by apply strip_spaces.
Qed.

Lemma parse_voice_profile_tone_written_witness :
  profile_tone (parse_voice_profile sample_profile)
  = "- Uses emojis: 40% of posts".
Proof.
  exact (parse_voice_profile_tone_written "- Uses emojis: 40% of posts"
           ("# Voice" +:+ nl +:+ nl)
           (topics_section (fun t => t) ["Nft"; "Community"] +:+ nl +:+ nl
            +:+ sample_profile_tail)
           sample_profile eq_refl eq_refl eq_refl eq_refl).
Defined.

Lemma Forall_push (P : string -> Prop) (c : ascii) (l : list string) :
  (forall w, P w -> P (String c w)) -> P (String c EmptyString) ->
  Forall P l -> Forall P (push c l).
Proof.
  intros Hcons Hone Hl. destruct Hl as [|w ws Hw Hws]; simpl.
  - by repeat constructor.
  - constructor; auto.
Qed.

Lemma bullets_no_newline (mode : bullet_mode) (s : string) :
  Forall (fun t => no_newline t = true) (bullets mode s).
Proof.
  revert mode. induction s as [|c s IH]; intros mode.
  - destruct mode; by repeat constructor.
  - destruct mode.
    + change (bullets Scan (String c s))
        with (if String.prefix "- " (String c s) then bullets SkipSpace s
              else bullets Scan s).
      destruct (String.prefix "- " (String c s)); apply IH.
    + apply IH.
    + change (bullets Capture (String c s))
        with (if (code c =? 10)%N then EmptyString :: bullets Scan s
              else push c (bullets Capture s)).
      destruct (code c =? 10)%N eqn:Hc.
      * constructor; [done | apply IH].
      * apply Forall_push; [| | apply IH]; unfold no_newline; cbn [all_chars];
          rewrite Hc; [by intros w -> | done].
Qed.

(** X23.  Whatever the document, the fields [load_voice_profile] returns
    are normalised: the raw field is the document; every example is
    stripped and longer than 20 characters; every topic is stripped and
    holds no newline; the tone is stripped. *)
Theorem parse_voice_profile_fields (content : string) :
  profile_raw (parse_voice_profile content) = content
  /\ Forall (fun ex => strip ex = ex /\ (20 < String.length ex)%nat)
       (profile_examples (parse_voice_profile content))
  /\ Forall (fun t => strip t = t /\ no_newline t = true)
       (profile_topics (parse_voice_profile content))
  /\ strip (profile_tone (parse_voice_profile content))
     = profile_tone (parse_voice_profile content).
Proof.
  split; [done|]. cbn [parse_voice_profile profile_examples profile_topics profile_tone].
  split; [|split].
  - apply Forall_forall. intros ex [Hlen Hin]%list_elem_of_filter.
    apply list_elem_of_fmap in Hin as (raw & -> & _).
    split; [apply strip_idempotent | done].
  - destruct (section_after "### Topics" content) as [block|]; [|constructor].
    apply Forall_fmap. eapply Forall_impl; [apply bullets_no_newline|].
    intros t Ht. cbn. split; [apply strip_idempotent|].
    by apply all_chars_strip.
  - destruct (section_after "### Tone" content); [apply strip_idempotent | done].
Qed.

Lemma split_at_no_first (first : ascii) (pat s : string) :
  all_chars (fun c => negb (code c =? code first)%N) s = true ->
  split_at (String first pat) s = None.
Proof.
  induction s as [|c s IH]; [done|]. cbn [all_chars].
  intros [Hc Hs]%andb_true_iff. rewrite split_at_eq.
  assert (after_prefix (String first pat) (String c s) = None) as ->.
  { unfold after_prefix. rewrite prefix_cons.
    destruct (ascii_dec first c) as [->|]; [|done].
    by rewrite N.eqb_refl in Hc. }
  by rewrite IH.
Qed.

(** X24.  A document with no hash has no topics and an empty tone; a
    document with no backtick has no examples. *)
Theorem parse_voice_profile_plain_text (content : string) :
  (no_hash content = true ->
   profile_topics (parse_voice_profile content) = []
   /\ profile_tone (parse_voice_profile content) = EmptyString)
  /\ (no_backtick content = true ->
      profile_examples (parse_voice_profile content) = []).
Proof.
  cbn [parse_voice_profile profile_examples profile_topics profile_tone].
  split.
  - intros Hhash. unfold section_after.
    change ("### Topics" +:+ nl) with (String "#" ("## Topics" +:+ nl)).
    change ("### Tone" +:+ nl) with (String "#" ("## Tone" +:+ nl)).
    by rewrite !split_at_no_first by exact Hhash.
  - intros Htick. by rewrite find_fences_plain_end.
Qed.

Lemma parse_voice_profile_plain_text_witness :
  profile_topics (parse_voice_profile "gm - just `vibes`, nothing else today") = []
  /\ profile_examples (parse_voice_profile "## gm - just vibes, nothing else today") = [].
Proof.
  split.
  - exact (proj1 (proj1 (parse_voice_profile_plain_text
                           "gm - just `vibes`, nothing else today") eq_refl)).
  - exact (proj2 (parse_voice_profile_plain_text
                    "## gm - just vibes, nothing else today") eq_refl).
Defined.
